(** * VR180 job orchestrator: a shallow embedding of [server/index_optimized.js]

    The server keeps a map of job records, starts one [VR180Pipeline] per
    upload and lets clients poll the status and download the result.  This
    file embeds the job map, the pipeline class and the upload, status and
    download routes of the optimized server, and proves the properties of
    the orchestration that the specification states (C1 to C10).  The
    source file also holds an older variant of the same server, with other
    timings and step counts; its pipeline is embedded in [Standard], and
    further properties of both follow the claims.

    Modelling choices.
    - JavaScript numbers are embedded as rationals ([Q]): the arithmetic of
      the progress values is exact here, rounding of doubles is not
      modelled.  [undefined]/[NaN] in [progress.percent] is [None].
    - Arrays of stage objects live in a heap ([arrays]); a job record and a
      pipeline hold a reference to an array, so that the assignment
      [job.stages = this.stages] is the aliasing it is in the source.  Job
      records are values of the [jobs] map: the closure variable [job] of
      the upload route and [jobs.get(jobId)] are the same object as long as
      [uuidv4] returns identifiers that are not in use, which is assumed.
    - The control flow of the pipeline never reads the job map: every
      method is embedded as a function from the outcomes of its external
      calls (an [Env]) to the sequence of atomic steps it performs and its
      result (resolved, or rejected with the message of the error).  The
      system runs these steps one at a time, interleaved with those of
      other jobs; a pipeline that stalls is a run that takes no more steps.
    - ffmpeg emits any number of 'progress' events and then 'end' or
      'error'.
    - [new Date()] is an input of the handler that reads it.
    - An error is its [message].  The [catch] of the upload route (status
      500) is left out: nothing in its [try] block throws. *)

From Stdlib Require Import QArith Lqa Ascii String.

From stdpp Require Import gmap strings list fin_maps pretty.

Local Open Scope string_scope.

Local Open Scope list_scope.

(** ** Data model *)

Definition loc := nat.

(** One entry of a [stages] array: [{ name, progress, status }]. *)
Record Stage := mkStage {
  name : string;
  progress : Q;
  status : string
}.

(** The array literal written both in the [VR180Pipeline] constructor and in
    the job literal of the upload handler. *)
Definition initialStages : list Stage :=
  [ mkStage "depth" 0 "pending";
    mkStage "stereo" 0 "pending";
    mkStage "outpainting" 0 "pending";
    mkStage "blur" 0 "pending";
    mkStage "upscaling" 0 "pending" ].

(** The fields of a [VR180Pipeline] instance; [stages] is a reference. *)
Record VR180Pipeline := mkPipeline {
  jobId : string;
  inputPath : string;
  outputDir : string;
  stages : loc
}.

(** A job record.  The optional fields are absent until they are assigned. *)
Record Job := mkJob {
  job_id : string;
  job_filename : string;
  job_size : Z;
  job_uploadTime : Z;
  job_status : string;
  job_stages : loc;
  job_lastUpdated : Z;
  job_pipeline : option VR180Pipeline;
  job_completedAt : option Z;
  job_failedAt : option Z;
  job_error : option string
}.

(** The module-level [jobs] map and the heap of stage arrays. *)
Record Store := mkStore {
  jobs : gmap string Job;
  arrays : gmap loc (list Stage)
}.

Definition emptyStore : Store := mkStore ∅ ∅.

(** ** External collaborators *)

(** The calls on which the pipeline suspends. *)
Inductive External :=
| fs_mkdir (path : string)
| ffmpeg_run (input : string) (output : string)
| ffmpeg_progress
| ffmpeg_finish
| fs_readdir (path : string)
| createOptimizedDepthMap (outputPath : string)
| setTimeout (ms : Q).

(** The outcomes of the external calls of one pipeline run.  [None] is
    success where a call can only succeed or fail with a message. *)
Record Env := mkEnv {
  (* the i-th call of fs.mkdir in initialize *)
  mkdir_results : nat → option string;
  (* 'progress' events of the frame extraction: [progress.percent] *)
  extraction_progress : list (option Q);
  (* 'end' ([None]) or 'error' *)
  extraction_finish : option string;
  (* fs.readdir of the frames directory *)
  readdir_frames : string + list string;
  (* the i-th call of createOptimizedDepthMap *)
  depthMap_results : nat → option string
}.

(** ** The pipeline as a sequence of atomic steps *)

Inductive Effect :=
| Update (stageName : string) (progress : Q) (status : string)
| Await (call : External).

(** Steps performed so far, and either the thrown error's message or the
    returned value. *)
Definition M (A : Type) : Type := list Effect * (string + A).

Definition ret {A} (a : A) : M A := ([], inr a).

Definition throw {A} (message : string) : M A := ([], inl message).

Definition bind {A B} (m : M A) (f : A → M B) : M B :=
  match m with
  | (w, inl e) => (w, inl e)
  | (w, inr a) => let '(w', r) := f a in (w ++ w', r)
  end.

Definition try_catch {A} (m : M A) (handler : string → M A) : M A :=
  match m with
  | (w, inl e) => let '(w', r) := handler e in (w ++ w', r)
  | (w, inr a) => (w, inr a)
  end.

#[global] Instance M_ret : MRet M := @ret.

#[global] Instance M_bind : MBind M := fun A B f m => bind m f.

(** The call [this.updateProgress(stageName, progress, status)] as a step;
    what the step does to the store is [updateProgress] below. *)
Definition this_updateProgress (stageName : string) (progress : Q) (status : string) : M unit :=
  ([Update stageName progress status], inr tt).

(** [await] on an external call whose outcome is [r]. *)
Definition await (call : External) (r : option string) : M unit :=
  match r with
  | None => ([Await call], inr tt)
  | Some message => ([Await call], inl message)
  end.

(** [for (const x of l) body(x)]. *)
Fixpoint for_each {A} (l : list A) (body : A → M unit) : M unit :=
  match l with
  | [] => ret tt
  | x :: r => body x ;; for_each r body
  end.

(** [for (let i = 0; i < n; i++) body(i)]. *)
Definition for_range (n : nat) (body : nat → M unit) : M unit :=
  for_each (seq 0 n) body.

Definition ofNat (n : nat) : Q := inject_Z (Z.of_nat n).

(** [s.endsWith(suffix)]. *)
Definition endsWith (s suffix : string) : bool :=
  let n := String.length s in
  let m := String.length suffix in
  (m <=? n)%nat && String.eqb (String.substring (n - m) m s) suffix.

(** [String(n).padStart(width, '0')]. *)
Fixpoint zeros (n : nat) : string :=
  match n with O => "" | S k => "0" +:+ zeros k end.

Definition padStart0 (width : nat) (s : string) : string :=
  zeros (width - String.length s) +:+ s.

(** [progress.percent || 0]: a missing, [NaN] or zero percent is [0]. *)
Definition percent_or_0 (percent : option Q) : Q :=
  match percent with
  | Some q => if Qeq_bool q 0 then 0 else q
  | None => 0
  end.

Definition Math_min (a b : Q) : Q := if Qle_bool a b then a else b.

Section Pipeline.

Variable env : Env.

Variable this : VR180Pipeline.

Definition initialize : M unit :=
  await (fs_mkdir (outputDir this)) (mkdir_results env 0) ;;
  await (fs_mkdir (outputDir this +:+ "/frames")) (mkdir_results env 1) ;;
  await (fs_mkdir (outputDir this +:+ "/depth")) (mkdir_results env 2) ;;
  await (fs_mkdir (outputDir this +:+ "/stereo")) (mkdir_results env 3).

Definition extractFrames : M unit :=
  this_updateProgress "depth" 10 "processing" ;;
  await (ffmpeg_run (inputPath this)
           (outputDir this +:+ "/frames/frame_%04d.png")) None ;;
  for_each (extraction_progress env) (fun progress =>
    let percent := Math_min (percent_or_0 progress) 90 in
    await ffmpeg_progress None ;;
    this_updateProgress "depth" (10 + percent * (3 # 10))%Q "processing") ;;
  match extraction_finish env with
  | None =>
      await ffmpeg_finish None ;;
      this_updateProgress "depth" 40 "processing"
  | Some error => await ffmpeg_finish (Some error)
  end.

Definition generateDepthMaps : M unit :=
  try_catch (
    this_updateProgress "depth" 50 "processing" ;;
    frameFiles ← match readdir_frames env with
                 | inl error =>
                     await (fs_readdir (outputDir this +:+ "/frames")) (Some error) ;;
                     ret []
                 | inr files =>
                     await (fs_readdir (outputDir this +:+ "/frames")) None ;;
                     ret files
                 end;
    let pngFiles := List.filter (fun f => endsWith f ".png") frameFiles in
    let totalFrames := Nat.min (length pngFiles) 5 in
    (if (totalFrames =? 0)%nat
     then throw "No frames extracted from video"
     else ret tt) ;;
    for_range totalFrames (fun i =>
      let depthMapPath :=
        outputDir this +:+ "/depth/depth_" +:+ padStart0 4 (pretty (i + 1)%nat) +:+ ".png" in
      try_catch (
        await (createOptimizedDepthMap depthMapPath) (depthMap_results env i) ;;
        let progress := (50 + (ofNat (i + 1)%nat / ofNat totalFrames) * 50)%Q in
        this_updateProgress "depth" progress "processing")
        (fun error => (* Continue with next frame *) ret tt)) ;;
    this_updateProgress "depth" 100 "completed")
  (fun error => throw error).

Definition synthesizeStereo : M unit :=
  try_catch (
    this_updateProgress "stereo" 0 "processing" ;;
    let steps := 5%nat in
    for_range steps (fun i =>
      await (setTimeout 100) None ;;
      let progress := ((ofNat (i + 1)%nat / ofNat steps) * 100)%Q in
      this_updateProgress "stereo" progress "processing") ;;
    this_updateProgress "stereo" 100 "completed")
  (fun error => throw error).

Definition expandPanorama : M unit :=
  try_catch (
    this_updateProgress "outpainting" 0 "processing" ;;
    (* { name, duration, progress } *)
    let stages := [("AI Outpainting", 300%Q, 60%Q);
                   ("Projection Mapping", 200%Q, 100%Q)] in
    for_each stages (fun '(stage_name, stage_duration, stage_progress) =>
      let steps := 5%nat in
      let stepDuration := (stage_duration / ofNat steps)%Q in
      for_range steps (fun i =>
        await (setTimeout stepDuration) None ;;
        let stageProgress := ((ofNat (i + 1)%nat / ofNat steps) * stage_progress)%Q in
        this_updateProgress "outpainting" stageProgress "processing")) ;;
    this_updateProgress "outpainting" 100 "completed")
  (fun error => throw error).

Definition applyFoveatedBlur : M unit :=
  try_catch (
    this_updateProgress "blur" 0 "processing" ;;
    let steps := 4%nat in
    for_range steps (fun i =>
      await (setTimeout 150) None ;;
      let progress := ((ofNat (i + 1)%nat / ofNat steps) * 100)%Q in
      this_updateProgress "blur" progress "processing") ;;
    this_updateProgress "blur" 100 "completed")
  (fun error => throw error).

Definition upscaleAndEnhance : M unit :=
  try_catch (
    this_updateProgress "upscaling" 0 "processing" ;;
    (* { name, duration, progress } *)
    let stages := [("AI Upscaling", 500%Q, 70%Q);
                   ("Quality Enhancement", 300%Q, 100%Q)] in
    for_each stages (fun '(stage_name, stage_duration, stage_progress) =>
      let steps := 5%nat in
      let stepDuration := (stage_duration / ofNat steps)%Q in
      for_range steps (fun i =>
        await (setTimeout stepDuration) None ;;
        let stageProgress := ((ofNat (i + 1)%nat / ofNat steps) * stage_progress)%Q in
        this_updateProgress "upscaling" stageProgress "processing")) ;;
    this_updateProgress "upscaling" 100 "completed")
  (fun error => throw error).

Definition processVideo : M bool :=
  try_catch (
    initialize ;;
    extractFrames ;;
    generateDepthMaps ;;
    synthesizeStereo ;;
    expandPanorama ;;
    applyFoveatedBlur ;;
    upscaleAndEnhance ;;
    ret true)
  (fun error => throw error).

End Pipeline.

(** Stages 3 to 6 of [processVideo]; they consult no external outcome. *)
Definition later_stages : M bool :=
  synthesizeStereo ;;
  expandPanorama ;;
  applyFoveatedBlur ;;
  upscaleAndEnhance ;;
  ret true.

(** The steps of [processVideo] up to the completion of the depth stage. *)
Definition depth_stages (env : Env) (this : VR180Pipeline) : M unit :=
  initialize env this ;; extractFrames env this ;; generateDepthMaps env this.

(** ** The store operations *)

(** [const stage = this.stages.find(s => s.name === stageName);
     if (stage) { stage.progress = progress; stage.status = status; }]
    on the array itself. *)
Definition update_stage (stageName : string) (progress : Q) (status : string)
    (arr : list Stage) : list Stage :=
  match list_find (fun s => name s = stageName) arr with
  | Some (i, stage) => <[i := mkStage (name stage) progress status]> arr
  | None => arr
  end.

Definition set_stages (job : Job) (stages : loc) (lastUpdated : Z) : Job :=
  mkJob (job_id job) (job_filename job) (job_size job) (job_uploadTime job)
    (job_status job) stages lastUpdated (job_pipeline job)
    (job_completedAt job) (job_failedAt job) (job_error job).

(** [VR180Pipeline.updateProgress]; [now] is the value of [new Date()]. *)
Definition updateProgress (now : Z) (this : VR180Pipeline)
    (stageName : string) (progress : Q) (status : string) (σ : Store) : Store :=
  let arrays' :=
    match arrays σ !! stages this with
    | Some arr => <[stages this := update_stage stageName progress status arr]> (arrays σ)
    | None => arrays σ
    end in
  let jobs' :=
    match jobs σ !! jobId this with
    | Some job => <[jobId this := set_stages job (stages this) now]> (jobs σ)
    | None => jobs σ
    end in
  mkStore jobs' arrays'.

(** What one step of a pipeline does to the store. *)
Definition exec_effect (now : Z) (this : VR180Pipeline) (e : Effect) (σ : Store) : Store :=
  match e with
  | Update stageName progress status => updateProgress now this stageName progress status σ
  | Await _ => σ
  end.

(** The [.then] handler of the upload route:
    [job.status = 'completed'; job.completedAt = new Date()]. *)
Definition set_completed (now : Z) (job : Job) : Job :=
  mkJob (job_id job) (job_filename job) (job_size job) (job_uploadTime job)
    "completed" (job_stages job) (job_lastUpdated job) (job_pipeline job)
    (Some now) (job_failedAt job) (job_error job).

(** The [.catch] handler:
    [job.status = 'failed'; job.error = error.message; job.failedAt = new Date()]. *)
Definition set_failed (now : Z) (message : string) (job : Job) : Job :=
  mkJob (job_id job) (job_filename job) (job_size job) (job_uploadTime job)
    "failed" (job_stages job) (job_lastUpdated job) (job_pipeline job)
    (job_completedAt job) (Some now) (Some message).

Definition onFulfilled (now : Z) (id : string) (σ : Store) : Store :=
  mkStore (alter (set_completed now) id (jobs σ)) (arrays σ).

Definition onRejected (now : Z) (message : string) (id : string) (σ : Store) : Store :=
  mkStore (alter (set_failed now message) id (jobs σ)) (arrays σ).

(** [new Array]: the array gets an address that is not in use. *)
Definition alloc (arr : list Stage) (h : gmap loc (list Stage)) : loc * gmap loc (list Stage) :=
  let l := fresh (dom h) in (l, <[l := arr]> h).

(** ** The running system *)

(** A pipeline whose promise is not settled yet: the outcomes of the
    external calls of its run and the steps it still has to perform. *)
Record Runner := mkRunner {
  this : VR180Pipeline;
  renv : Env;
  pending : list Effect
}.

(** What the promise of [processVideo] settles with. *)
Definition outcome (r : Runner) : string + bool :=
  snd (processVideo (renv r) (this r)).

Record System := mkSystem {
  store : Store;
  runners : gmap string Runner
}.

Definition initialSystem : System := mkSystem emptyStore ∅.

(** [req.file] as multer provides it. *)
Record File := mkFile {
  originalname : string;
  size : Z;
  path : string
}.

(** The body of [GET /api/status/:jobId]; [view_stages] is the serialised
    array that [job.stages] refers to. *)
Record JobView := mkJobView {
  view_id : string;
  view_filename : string;
  view_status : string;
  view_stages : list Stage;
  view_uploadTime : Z;
  view_lastUpdated : Z;
  view_completedAt : option Z;
  view_failedAt : option Z;
  view_error : option string
}.

Inductive Response :=
| res_error (code : nat) (error : string)
| res_uploaded (message jobId filename : string)
| res_status (view : JobView)
| res_download (path filename : string).

(** [POST /api/upload].  [uuid] is the value of [uuidv4()], [uploadTime] and
    [lastUpdated] those of the two [new Date()].  [processVideo] runs up to
    its first [await], which is before any write. *)
Definition upload (uploadTime lastUpdated : Z) (uuid : string) (file : option File)
    (env : Env) (sys : System) : Response * System :=
  match file with
  | None => (res_error 400 "No video file uploaded", sys)
  | Some file =>
      let jobId := uuid in
      let inputPath := path file in
      let '(job_stages, h1) := alloc initialStages (arrays (store sys)) in
      let job := mkJob jobId (originalname file) (size file) uploadTime
                   "processing" job_stages lastUpdated None None None None in
      let jobs1 := <[jobId := job]> (jobs (store sys)) in
      let '(pipeline_stages, h2) := alloc initialStages h1 in
      let pipeline := mkPipeline jobId inputPath ("outputs/" +:+ jobId) pipeline_stages in
      let job := mkJob jobId (originalname file) (size file) uploadTime
                   "processing" job_stages lastUpdated (Some pipeline) None None None in
      let jobs2 := <[jobId := job]> jobs1 in
      let steps := fst (processVideo env pipeline) in
      (res_uploaded "Video uploaded successfully. Processing started." jobId (originalname file),
       mkSystem (mkStore jobs2 h2) (<[jobId := mkRunner pipeline env steps]> (runners sys)))
  end.

(** The promise of [processVideo] settles: exactly one of the two handlers
    of [.then(...).catch(...)] runs (the [.then] handler does not throw). *)
Definition settle (now : Z) (id : string) (r : Runner) (σ : Store) : Store :=
  match outcome r with
  | inr _ => onFulfilled now id σ
  | inl message => onRejected now message id σ
  end.

(** [GET /api/status/:jobId]. *)
Definition getStatus (jobId : string) (σ : Store) : Response :=
  match jobs σ !! jobId with
  | None => res_error 404 "Job not found"
  | Some job =>
      res_status (mkJobView (job_id job) (job_filename job) (job_status job)
                    (default [] (arrays σ !! job_stages job))
                    (job_uploadTime job) (job_lastUpdated job)
                    (job_completedAt job) (job_failedAt job) (job_error job))
  end.

(** Does the whole of [s] match [[^/.]+]? *)
Definition is_extension (s : string) : bool :=
  negb (String.eqb s "") &&
  forallb (fun c => negb (Ascii.eqb c "/"%char || Ascii.eqb c "."%char))
    (list_ascii_of_string s).

(** Does [s] match [\.[^/.]+$] at its first character? *)
Definition matches_extension (s : string) : bool :=
  match s with
  | String "."%char rest => is_extension rest
  | _ => false
  end.

(** [s.replace(/\.[^/.]+$/, "")]: the leftmost match is removed. *)
Fixpoint replace_extension (s : string) : string :=
  if matches_extension s then ""
  else match s with
       | "" => ""
       | String c rest => String c (replace_extension rest)
       end.

(** [GET /api/download/:jobId]; [access path] tells whether [fs.access]
    succeeds. *)
Definition download (access : string → bool) (jobId : string) (σ : Store) : Response :=
  match jobs σ !! jobId with
  | None => res_error 404 "Job not found"
  | Some job =>
      if negb (String.eqb (job_status job) "completed")
      then res_error 400 "Job not completed yet"
      else
        let outputPath := "outputs/" +:+ jobId +:+ "/final_vr180.mp4" in
        if access outputPath
        then res_download outputPath (replace_extension (job_filename job) +:+ "_VR180.mp4")
        else res_error 404 "Output file not found"
  end.

(** The events of the system: a request to the upload route (with the
    identifier [uuidv4] returns, which is not in use), a step of the
    pipeline of a job, and the settling of its promise. *)
Inductive Label :=
| LUpload (uploadTime lastUpdated : Z) (uuid : string) (file : option File) (env : Env)
| LStep (now : Z) (id : string)
| LSettle (now : Z) (id : string).

Definition sys_next (l : Label) (sys : System) : option System :=
  match l with
  | LUpload t1 t2 uuid file env =>
      match jobs (store sys) !! uuid with
      | None => Some (snd (upload t1 t2 uuid file env sys))
      | Some _ => None
      end
  | LStep now id =>
      match runners sys !! id with
      | Some (mkRunner p env (e :: rest)) =>
          Some (mkSystem (exec_effect now p e (store sys))
                  (<[id := mkRunner p env rest]> (runners sys)))
      | _ => None
      end
  | LSettle now id =>
      match runners sys !! id with
      | Some (mkRunner p env []) =>
          Some (mkSystem (settle now id (mkRunner p env []) (store sys))
                  (delete id (runners sys)))
      | _ => None
      end
  end.

Fixpoint sys_run (ls : list Label) (sys : System) : option System :=
  match ls with
  | [] => Some sys
  | l :: ls => sys' ← sys_next l sys; sys_run ls sys'
  end.

(** ** Stage arrays along a run *)

(** What a step does to the array of its pipeline. *)
Definition exec_arr (e : Effect) (arr : list Stage) : list Stage :=
  match e with
  | Update stageName progress status => update_stage stageName progress status arr
  | Await _ => arr
  end.

Definition names : list string := name <$> initialStages.

Definition done (n : string) : Stage := mkStage n 100 "completed".

Definition untouched (n : string) : Stage := mkStage n 0 "pending".

(** Stage [k+1] has left [pending] only if stage [k] is [completed]. *)
Definition in_order (arr : list Stage) : Prop :=
  ∀ k s s', arr !! k = Some s → arr !! S k = Some s' →
    status s' ≠ "pending" → status s = "completed".

(** A completed stage of [a] is still completed in [b]. *)
Definition keeps_completed (a b : list Stage) : Prop :=
  ∀ k s, a !! k = Some s → status s = "completed" →
    ∃ s', b !! k = Some s' ∧ status s' = "completed".

(** ** Bounds, observations and scenarios *)

Definition upper (q : Q) : Prop := (q <= 100)%Q.

Definition within (q : Q) : Prop := (0 <= q)%Q ∧ (q <= 100)%Q.

(** The percentages that ffmpeg reports are not negative. *)
Definition reports_nonneg (env : Env) : Prop :=
  Forall (fun progress => match progress with
                          | Some q => (0 <= q)%Q
                          | None => True
                          end) (extraction_progress env).

(** The upload that creates job [id], if the event is one, comes with a
    frame extraction whose reports are not negative.  Nothing is asked of
    the uploads of other jobs. *)
Definition own_reports_nonneg (id : string) (l : Label) : Prop :=
  match l with
  | LUpload _ _ uuid (Some _) env => uuid = id → reports_nonneg env
  | _ => True
  end.

Definition status_moves (before after : string) : Prop :=
  after = before ∨
  before = "processing" ∧ (after = "completed" ∨ after = "failed").

Definition demo_file : File :=
  mkFile "holiday.mp4" 1000 "uploads/6f1c-holiday.mp4".

(** Every external call succeeds, except the creation of the first of the
    two depth maps. *)
Definition env_two_frames : Env :=
  mkEnv (fun _ => None) [Some 10%Q; Some 25%Q; Some 40%Q] None
        (inr ["frame_0001.png"; "frame_0002.png"; "notes.txt"])
        (fun i => if (i =? 0)%nat then Some "ffmpeg exited with code 1" else None).

(** The frame extraction ends without having written a frame. *)
Definition env_no_frames : Env :=
  mkEnv (fun _ => None) [] None (inr []) (fun _ => None).

(** ffmpeg reports a negative percentage. *)
Definition env_negative_report : Env :=
  mkEnv (fun _ => None) [Some (-100)%Q] None (inr ["frame_0001.png"]) (fun _ => None).

Definition steps (now : Z) (id : string) (n : nat) : list Label :=
  replicate n (LStep now id).

(** The system after a list of events, when they are all enabled. *)
Definition after (ls : list Label) : System :=
  default initialSystem (sys_run ls initialSystem).

(** The frames that [generateDepthMaps] finds. *)
Definition pngFiles (files : list string) : list string :=
  List.filter (fun f => endsWith f ".png") files.

Definition set_depthMap_results (results : nat → option string) (env : Env) : Env :=
  mkEnv (mkdir_results env) (extraction_progress env) (extraction_finish env)
        (readdir_frames env) results.

(** ** Further notions about jobs and runs *)

(** The job an event of the system is about. *)
Definition label_job (l : Label) : string :=
  match l with
  | LUpload _ _ uuid _ _ => uuid
  | LStep _ id => id
  | LSettle _ id => id
  end.

(** The optional fields of a job record agree with its status. *)
Definition fields_agree (status : string) (completedAt failedAt : option Z)
    (error : option string) : Prop :=
  status = "processing" ∧ completedAt = None ∧ failedAt = None ∧ error = None ∨
  status = "completed" ∧ is_Some completedAt ∧ failedAt = None ∧ error = None ∨
  status = "failed" ∧ completedAt = None ∧ is_Some failedAt ∧ is_Some error.

(** The error that makes [processVideo] reject, if any call fails: the
    first of the four [mkdir], the frame extraction, the listing of the
    frames, or the absence of frames. *)
Definition first_failure (env : Env) : option string :=
  match mkdir_results env 0, mkdir_results env 1,
        mkdir_results env 2, mkdir_results env 3 with
  | Some e, _, _, _ => Some e
  | None, Some e, _, _ => Some e
  | None, None, Some e, _ => Some e
  | None, None, None, Some e => Some e
  | None, None, None, None =>
      match extraction_finish env with
      | Some e => Some e
      | None =>
          match readdir_frames env with
          | inl e => Some e
          | inr files =>
              match pngFiles files with
              | [] => Some "No frames extracted from video"
              | _ :: _ => None
              end
          end
      end
  end.

(** The output paths of the depth maps a sequence of steps asks for. *)
Definition depthMap_calls (ws : list Effect) : list string :=
  omap (fun e => match e with
                 | Await (createOptimizedDepthMap outputPath) => Some outputPath
                 | _ => None
                 end) ws.

(** The path of the depth map of frame [i] (counted from 0). *)
Definition depthMapPath (this : VR180Pipeline) (i : nat) : string :=
  outputDir this +:+ "/depth/depth_" +:+ padStart0 4 (pretty (i + 1)%nat) +:+ ".png".

(** Every job record of the system has optional fields that agree with
    its status. *)
Definition fields_inv (sys : System) : Prop :=
  ∀ id j, jobs (store sys) !! id = Some j →
    fields_agree (job_status j) (job_completedAt j) (job_failedAt j) (job_error j).

(** The first and the last time an event of the system reads. *)
Definition label_first_time (l : Label) : Z :=
  match l with
  | LUpload uploadTime _ _ _ _ => uploadTime
  | LStep now _ => now
  | LSettle now _ => now
  end.

Definition label_last_time (l : Label) : Z :=
  match l with
  | LUpload _ lastUpdated _ _ _ => lastUpdated
  | LStep now _ => now
  | LSettle now _ => now
  end.

(** The clock does not go back along the events [ls], starting at [t]. *)
Fixpoint clock_advances (t : Z) (ls : list Label) : Prop :=
  match ls with
  | [] => True
  | l :: ls => (t <= label_first_time l)%Z ∧
               (label_first_time l <= label_last_time l)%Z ∧
               clock_advances (label_last_time l) ls
  end.

Fixpoint clock_after (t : Z) (ls : list Label) : Z :=
  match ls with
  | [] => t
  | l :: ls => clock_after (label_last_time l) ls
  end.

(** No job record was updated after [t], nor before its upload. *)
Definition time_inv (t : Z) (sys : System) : Prop :=
  ∀ id j, jobs (store sys) !! id = Some j →
    (job_uploadTime j <= job_lastUpdated j)%Z ∧ (job_lastUpdated j <= t)%Z.

(** The array after the steps [ws], taken from [arr]. *)
Definition run_arr (ws : list Effect) (arr : list Stage) : list Stage :=
  foldl (fun a e => exec_arr e a) arr ws.

(** ** The older variant of the pipeline

    The second [VR180Pipeline] class of the source file: the same methods
    with other step counts and delays, a depth-map generation that goes
    through all the frames in batches of five, and a stereo synthesis that
    lists the frames first.  Its [createPlaceholderDepthMap] has the body
    of [createOptimizedDepthMap]; its calls are recorded as
    [createOptimizedDepthMap] steps. *)
Module Standard.

(** The outcomes of the external calls of a run: those the optimized
    pipeline has too, and the [fs.readdir] of [synthesizeStereo]. *)
Record Outcomes := mkOutcomes {
  common : Env;
  readdir_stereo : string + list string
}.

Section Pipeline.
Variable env : Outcomes.
Variable this : VR180Pipeline.

Definition initialize : M unit :=
  await (fs_mkdir (outputDir this)) (mkdir_results (common env) 0) ;;
  await (fs_mkdir (outputDir this +:+ "/frames")) (mkdir_results (common env) 1) ;;
  await (fs_mkdir (outputDir this +:+ "/depth")) (mkdir_results (common env) 2) ;;
  await (fs_mkdir (outputDir this +:+ "/stereo")) (mkdir_results (common env) 3).

Definition extractFrames : M unit :=
  this_updateProgress "depth" 10 "processing" ;;
  await (ffmpeg_run (inputPath this)
           (outputDir this +:+ "/frames/frame_%04d.png")) None ;;
  for_each (extraction_progress (common env)) (fun progress =>
    let percent := Math_min (percent_or_0 progress) 90 in
    await ffmpeg_progress None ;;
    this_updateProgress "depth" (10 + percent * (3 # 10))%Q "processing") ;;
  match extraction_finish (common env) with
  | None =>
      await ffmpeg_finish None ;;
      this_updateProgress "depth" 40 "processing"
  | Some error => await ffmpeg_finish (Some error)
  end.

(** [for (let batchStart = 0; batchStart < totalFrames; batchStart += batchSize)].
    [fuel] bounds the number of iterations; [generateDepthMaps] gives
    [totalFrames], which the loop never uses up
    ([Standard_depth_maps_requested]). *)
Fixpoint batches (pngFiles : list string) (totalFrames batchSize : nat)
    (fuel batchStart : nat) : M unit :=
  match fuel with
  | O => ret tt
  | S fuel =>
      if (batchStart <? totalFrames)%nat then
        let batchEnd := Nat.min (batchStart + batchSize) totalFrames in
        let batch := take (batchEnd - batchStart) (drop batchStart pngFiles) in
        for_range (length batch) (fun i =>
          let frameIndex := (batchStart + i)%nat in
          let depthMapPath :=
            outputDir this +:+ "/depth/depth_" +:+
            padStart0 4 (pretty (frameIndex + 1)%nat) +:+ ".png" in
          try_catch
            (await (createOptimizedDepthMap depthMapPath)
               (depthMap_results (common env) frameIndex))
            (fun error => (* Continue with next frame instead of failing *) ret tt)) ;;
        let progress := (50 + (ofNat batchEnd / ofNat totalFrames) * 50)%Q in
        this_updateProgress "depth" progress "processing" ;;
        batches pngFiles totalFrames batchSize fuel (batchStart + batchSize)
      else ret tt
  end.

Definition generateDepthMaps : M unit :=
  try_catch (
    this_updateProgress "depth" 50 "processing" ;;
    frameFiles ← match readdir_frames (common env) with
                 | inl error =>
                     await (fs_readdir (outputDir this +:+ "/frames")) (Some error) ;;
                     ret []
                 | inr files =>
                     await (fs_readdir (outputDir this +:+ "/frames")) None ;;
                     ret files
                 end;
    let pngFiles := List.filter (fun f => endsWith f ".png") frameFiles in
    let totalFrames := length pngFiles in
    (if (totalFrames =? 0)%nat
     then throw "No frames extracted from video"
     else ret tt) ;;
    let batchSize := Nat.min 5 totalFrames in
    batches pngFiles totalFrames batchSize totalFrames 0 ;;
    this_updateProgress "depth" 100 "completed")
  (fun error => throw error).

Definition synthesizeStereo : M unit :=
  try_catch (
    this_updateProgress "stereo" 0 "processing" ;;
    frameFiles ← match readdir_stereo env with
                 | inl error =>
                     await (fs_readdir (outputDir this +:+ "/frames")) (Some error) ;;
                     ret []
                 | inr files =>
                     await (fs_readdir (outputDir this +:+ "/frames")) None ;;
                     ret files
                 end;
    let pngFiles := List.filter (fun f => endsWith f ".png") frameFiles in
    let totalFrames := length pngFiles in
    let steps := 10%nat in
    for_range steps (fun i =>
      await (setTimeout 200) None ;;
      let progress := ((ofNat (i + 1)%nat / ofNat steps) * 100)%Q in
      this_updateProgress "stereo" progress "processing") ;;
    this_updateProgress "stereo" 100 "completed")
  (fun error => throw error).

Definition expandPanorama : M unit :=
  try_catch (
    this_updateProgress "outpainting" 0 "processing" ;;
    (* { name, duration, progress } *)
    let stages := [("AI Outpainting", 1000%Q, 60%Q);
                   ("Projection Mapping", 800%Q, 100%Q)] in
    for_each stages (fun '(stage_name, stage_duration, stage_progress) =>
      let steps := 10%nat in
      let stepDuration := (stage_duration / ofNat steps)%Q in
      for_range steps (fun i =>
        await (setTimeout stepDuration) None ;;
        let stageProgress := ((ofNat (i + 1)%nat / ofNat steps) * stage_progress)%Q in
        this_updateProgress "outpainting" stageProgress "processing")) ;;
    this_updateProgress "outpainting" 100 "completed")
  (fun error => throw error).

Definition applyFoveatedBlur : M unit :=
  try_catch (
    this_updateProgress "blur" 0 "processing" ;;
    let steps := 8%nat in
    for_range steps (fun i =>
      await (setTimeout 300) None ;;
      let progress := ((ofNat (i + 1)%nat / ofNat steps) * 100)%Q in
      this_updateProgress "blur" progress "processing") ;;
    this_updateProgress "blur" 100 "completed")
  (fun error => throw error).

Definition upscaleAndEnhance : M unit :=
  try_catch (
    this_updateProgress "upscaling" 0 "processing" ;;
    (* { name, duration, progress } *)
    let stages := [("AI Upscaling", 1500%Q, 70%Q);
                   ("Quality Enhancement", 1000%Q, 100%Q)] in
    for_each stages (fun '(stage_name, stage_duration, stage_progress) =>
      let steps := 10%nat in
      let stepDuration := (stage_duration / ofNat steps)%Q in
      for_range steps (fun i =>
        await (setTimeout stepDuration) None ;;
        let stageProgress := ((ofNat (i + 1)%nat / ofNat steps) * stage_progress)%Q in
        this_updateProgress "upscaling" stageProgress "processing")) ;;
    this_updateProgress "upscaling" 100 "completed")
  (fun error => throw error).

Definition processVideo : M bool :=
  try_catch (
    initialize ;;
    extractFrames ;;
    generateDepthMaps ;;
    synthesizeStereo ;;
    expandPanorama ;;
    applyFoveatedBlur ;;
    upscaleAndEnhance ;;
    ret true)
  (fun error => throw error).

End Pipeline.

(** The steps of [processVideo] up to the completion of the depth stage,
    and the three stages that follow the stereo synthesis. *)
Definition depth_stages (env : Outcomes) (this : VR180Pipeline) : M unit :=
  initialize env this ;; extractFrames env this ;; generateDepthMaps env this.

Definition last_stages : M bool :=
  expandPanorama ;;
  applyFoveatedBlur ;;
  upscaleAndEnhance ;;
  ret true.

End Standard.

(** Every call succeeds and three frames are found, but the frames cannot
    be listed again by the stereo synthesis. *)
Definition outcomes_stereo_fails : Standard.Outcomes :=
  Standard.mkOutcomes
    (mkEnv (fun _ => None) [Some 50%Q] None
       (inr ["frame_0001.png"; "frame_0002.png"; "frame_0003.png"]) (fun _ => None))
    (inl "ENOENT: no such file or directory, scandir 'outputs/job-1/frames'").

(** Seven frames are found, every call succeeds. *)
Definition outcomes_seven_frames : Standard.Outcomes :=
  Standard.mkOutcomes
    (mkEnv (fun _ => None) [Some 50%Q] None
       (inr ["frame_0001.png"; "frame_0002.png"; "frame_0003.png"; "frame_0004.png";
             "frame_0005.png"; "frame_0006.png"; "frame_0007.png"]) (fun _ => None))
    (inr ["frame_0001.png"]).

(** ** Stage arrays along a run: definitions *)

Section Arrays.

(** The bound on progress values that is tracked along the runs. *)
Variable okP : Q → Prop.

Hypothesis okP_range : ∀ q, (0 <= q)%Q → (q <= 100)%Q → okP q.

Definition good (arr : list Stage) : Prop :=
  name <$> arr = names ∧
  in_order arr ∧
  Forall (fun s => okP (progress s) ∧
                   (status s = "pending" ∨ status s = "processing" ∨
                    status s = "completed")) arr.

(** The first [k] stages are completed, the others untouched. *)
Definition before_stage (k : nat) (arr : list Stage) : Prop :=
  arr = (done <$> take k names) ++ (untouched <$> drop k names).

(** Stage [k] is the current one. *)
Definition at_stage (k : nat) (arr : list Stage) : Prop :=
  ∃ n p st,
    names !! k = Some n ∧
    arr = (done <$> take k names) ++ mkStage n p st :: (untouched <$> drop (S k) names) ∧
    okP p ∧ (st = "processing" ∨ st = "pending" ∧ p = 0%Q).

Definition step_ok (a b : list Stage) : Prop := good b ∧ keeps_completed a b.

(** Every step of [ws], taken from [arr], leads to a good array and keeps
    the completed stages; the array reached in the end satisfies [Qf]. *)
Fixpoint safe (Qf : list Stage → Prop) (ws : list Effect) (arr : list Stage) : Prop :=
  match ws with
  | [] => Qf arr
  | e :: ws' => step_ok arr (exec_arr e arr) ∧ safe Qf ws' (exec_arr e arr)
  end.

(** A step of stage [n] that is not its last one. *)
Definition running_write (n : string) (e : Effect) : Prop :=
  match e with
  | Update n' p st => n' = n ∧ st = "processing" ∧ okP p
  | Await _ => True
  end.

(** The steps of a whole stage: progress reports, then the completion. *)
Definition stage_script (n : string) (ws : list Effect) : Prop :=
  ∃ ws0, ws = ws0 ++ [Update n 100 "completed"] ∧ Forall (running_write n) ws0.

Definition runs (n : string) {A} (m : M A) : Prop :=
  Forall (running_write n) (fst m).

(** A computation that either fails inside stage [n] or performs the
    whole stage. *)
Definition stage_or_fail (n : string) {A} (m : M A) : Prop :=
  match m with
  | (ws, inl _) => Forall (running_write n) ws
  | (ws, inr _) => stage_script n ws
  end.

(** The reports of the frame extraction are within the tracked bound. *)
Definition env_ok (env : Env) : Prop :=
  Forall (fun progress =>
            okP (10 + Math_min (percent_or_0 progress) 90 * (3 # 10))%Q)
         (extraction_progress env).

(** What the array of a pipeline looks like when its promise settles:
    every stage completed when it resolves, the depth stage not completed
    and the others untouched when it rejects. *)
Definition final (r : string + bool) (arr : list Stage) : Prop :=
  match r with
  | inl _ => at_stage 0 arr
  | inr _ => before_stage 5 arr
  end.

(** The same for the older variant, whose stereo synthesis can fail too. *)
Definition final_standard (r : string + bool) (arr : list Stage) : Prop :=
  match r with
  | inl _ => at_stage 0 arr ∨ at_stage 1 arr
  | inr _ => before_stage 5 arr
  end.

Definition label_ok (l : Label) : Prop :=
  match l with
  | LUpload _ _ _ _ env => env_ok env
  | _ => True
  end.

Record sys_inv (sys : System) : Prop := {
  (* a job record refers to its pipeline, and the array it shows has the
     contents of the array of the pipeline *)
  inv_job : ∀ id j, jobs (store sys) !! id = Some j →
    job_id j = id ∧
    ∃ p arr, job_pipeline j = Some p ∧ jobId p = id ∧
             arrays (store sys) !! job_stages j = Some arr ∧
             arrays (store sys) !! stages p = Some arr ∧
             good arr;
  (* an unsettled pipeline belongs to a job that is still processing, and
     its remaining steps are safe *)
  inv_runner : ∀ id r, runners sys !! id = Some r →
    ∃ j arr, jobs (store sys) !! id = Some j ∧
             job_status j = "processing" ∧
             job_pipeline j = Some (this r) ∧
             arrays (store sys) !! stages (this r) = Some arr ∧
             safe (final (outcome r)) (pending r) arr;
  (* the array of a pipeline is referred to by no other job *)
  inv_sep : ∀ id1 id2 j1 j2 p1 p2, id1 ≠ id2 →
    jobs (store sys) !! id1 = Some j1 → jobs (store sys) !! id2 = Some j2 →
    job_pipeline j1 = Some p1 → job_pipeline j2 = Some p2 →
    stages p1 ≠ stages p2 ∧ job_stages j1 ≠ stages p2
}.

(** The part of the invariant that bounds the progress values of one job:
    the array it shows is good, and the remaining steps of its pipeline
    are safe.  It is tracked for the job alone, with a bound that need not
    hold of the other jobs. *)
Definition job_inv (id : string) (sys : System) : Prop :=
  (∀ j, jobs (store sys) !! id = Some j →
     ∃ arr, arrays (store sys) !! job_stages j = Some arr ∧ good arr) ∧
  (∀ r, runners sys !! id = Some r →
     ∃ arr, arrays (store sys) !! stages (this r) = Some arr ∧
            safe (final (outcome r)) (pending r) arr).

(** An update of the job record that keeps its references. *)
Definition keeps_refs (f : Job → Job) : Prop :=
  ∀ j, job_id (f j) = job_id j ∧ job_pipeline (f j) = job_pipeline j ∧
       job_stages (f j) = job_stages j.

(** ** Stage arrays along a run: proofs *)

Lemma okP_0 : okP 0.
Proof. apply okP_range; discriminate. Qed.

Lemma okP_100 : okP 100.
Proof. apply okP_range; discriminate. Qed.

Lemma names_lookup_lt k n : names !! k = Some n → k < 5.
Proof. intros H. apply lookup_lt_Some in H. exact H. Qed.

Ltac stage_cases k Hk :=
  apply names_lookup_lt in Hk as ?;
  destruct k as [|[|[|[|[|k]]]]]; [ | | | | | lia];
  vm_compute in Hk; injection Hk as <-.

Ltac lookup_cases i :=
  destruct i as [|[|[|[|[|i]]]]]; simpl in *; simplify_eq; simpl in *.

Lemma before_at_stage k arr :
  k < 5 → before_stage k arr → at_stage k arr.
Proof using okP_range.
  intros Hk ->.
  destruct (names !! k) as [n|] eqn:Hn; [|apply lookup_ge_None in Hn; simpl in Hn; lia].
  exists n, 0%Q, "pending". split; [done|]. split; [|split; [apply okP_0 | by right]].
  rewrite (drop_S _ _ _ Hn). reflexivity.
Qed.

Lemma at_stage_good k arr : at_stage k arr → good arr.
Proof using okP_range.
  intros (n & p & st & Hn & -> & Hp & Hst).
  stage_cases k Hn; (split; [reflexivity|split]).
  all: try (intros i s s' H1 H2 H3; lookup_cases i;
            first [ reflexivity | congruence | by destruct Hst as [->|[-> _]] ]).
  all: repeat first [ apply Forall_nil_2 | apply Forall_cons_2 ]; simpl;
       (split; [first [ exact Hp | apply okP_0 | apply okP_100 ] | tauto ]).
Qed.

Lemma before_stage_good k arr : before_stage k arr → good arr.
Proof using okP_range.
  intros H. destruct (decide (k < 5)).
  - eapply at_stage_good, before_at_stage; eauto.
  - rewrite H, take_ge, drop_ge by (simpl; lia). simpl.
    split; [reflexivity|split].
    + intros i s s' H1 H2 H3. lookup_cases i; naive_solver.
    + repeat first [ apply Forall_nil_2 | apply Forall_cons_2 ]; simpl;
        (split; [apply okP_100 | naive_solver]).
Qed.

(** A progress report of the current stage. *)
Lemma running_step k n arr q :
  names !! k = Some n → at_stage k arr → okP q →
  at_stage k (update_stage n q "processing" arr) ∧
  keeps_completed arr (update_stage n q "processing" arr).
Proof.
  intros Hn (n' & p & st & Hn' & -> & Hp & Hst) Hq.
  assert (n' = n) as -> by congruence. clear Hn'.
  stage_cases k Hn; (split;
    [ eexists _, q, "processing"; split; [reflexivity|];
      split; [vm_compute; reflexivity|]; split; [exact Hq | by left]
    | intros i s H1 H2; vm_compute; lookup_cases i;
      first [ by eauto | by destruct Hst as [->|[-> _]] ] ]).
Qed.

(** The write that completes the current stage. *)
Lemma completing_step k n arr :
  names !! k = Some n → at_stage k arr →
  before_stage (S k) (update_stage n 100 "completed" arr) ∧
  keeps_completed arr (update_stage n 100 "completed" arr).
Proof.
  intros Hn (n' & p & st & Hn' & -> & Hp & Hst).
  assert (n' = n) as -> by congruence. clear Hn'.
  stage_cases k Hn; (split;
    [ vm_compute; reflexivity
    | intros i s H1 H2; vm_compute; lookup_cases i;
      first [ by eauto | by destruct Hst as [->|[-> _]] ] ]).
Qed.

Lemma safe_app Qf w1 w2 arr :
  safe Qf (w1 ++ w2) arr ↔ safe (safe Qf w2) w1 arr.
Proof.
  revert arr. induction w1 as [|e w1 IH]; intros arr; simpl; [done|].
  by rewrite IH.
Qed.

Lemma safe_mono (Q1 Q2 : list Stage → Prop) ws arr :
  (∀ a, Q1 a → Q2 a) → safe Q1 ws arr → safe Q2 ws arr.
Proof.
  intros HQ. revert arr. induction ws as [|e ws IH]; intros arr; simpl; [apply HQ|].
  intros [? ?]. split; [done|]. by apply IH.
Qed.

Lemma keeps_completed_refl arr : keeps_completed arr arr.
Proof. intros k s ? ?. eauto. Qed.

Lemma safe_running k n ws arr :
  names !! k = Some n → Forall (running_write n) ws → at_stage k arr →
  safe (at_stage k) ws arr.
Proof using okP_range.
  intros Hn Hws. revert arr. induction Hws as [|e ws He _ IH]; intros arr Harr; simpl; [done|].
  destruct e as [n' p st|call]; simpl in *.
  - destruct He as (-> & -> & Hp).
    destruct (running_step k n arr p Hn Harr Hp) as [H1 H2].
    split; [split; [by eapply at_stage_good|done]|]. by apply IH.
  - split; [split; [by eapply at_stage_good|apply keeps_completed_refl]|]. by apply IH.
Qed.

Lemma safe_stage k n ws arr :
  names !! k = Some n → stage_script n ws → at_stage k arr →
  safe (before_stage (S k)) ws arr.
Proof using okP_range.
  intros Hn (ws0 & -> & Hws) Harr.
  apply safe_app. eapply safe_mono; [|by eapply safe_running].
  intros a Ha. simpl.
  destruct (completing_step k n a Hn Ha) as [H1 H2].
  split; [|done]. split; [by eapply before_stage_good|done].
Qed.

Lemma runs_ret n {A} (a : A) : runs n (mret a).
Proof. constructor. Qed.

Lemma runs_throw n {A} message : runs n (@throw A message).
Proof. constructor. Qed.

Lemma runs_await n call r : runs n (await call r).
Proof. destruct r; repeat constructor. Qed.

Lemma runs_update n p : okP p → runs n (this_updateProgress n p "processing").
Proof. intros. repeat constructor; done. Qed.

Lemma runs_bind n {A B} (m : M A) (f : A → M B) :
  runs n m → (∀ a, runs n (f a)) → runs n (m ≫= f).
Proof.
  unfold runs. destruct m as [w [e|a]]; simpl; [done|].
  intros Hw Hf. specialize (Hf a). destruct (f a) as [w' r]; simpl in *.
  by apply Forall_app.
Qed.

Lemma runs_try_catch n {A} (m : M A) (h : string → M A) :
  runs n m → (∀ e, runs n (h e)) → runs n (try_catch m h).
Proof.
  unfold runs. destruct m as [w [e|a]]; simpl; [|done].
  intros Hw Hh. specialize (Hh e). destruct (h e) as [w' r]; simpl in *.
  by apply Forall_app.
Qed.

Lemma runs_for_each n {A} (l : list A) (body : A → M unit) :
  (∀ x, x ∈ l → runs n (body x)) → runs n (for_each l body).
Proof.
  induction l as [|x l IH]; intros H; simpl; [apply runs_ret|].
  apply runs_bind; [apply H; left|]. intros _. apply IH. intros y Hy. apply H. by right.
Qed.

Lemma try_catch_rethrow {A} (m : M A) : try_catch m (fun error => throw error) = m.
Proof. destruct m as [w [e|a]]; simpl; [|done]. by rewrite app_nil_r. Qed.

Lemma stage_or_fail_prefix n {A B} (m0 : M A) (f : A → M B) :
  runs n m0 → (∀ a, stage_or_fail n (f a)) → stage_or_fail n (m0 ≫= f).
Proof.
  unfold runs. destruct m0 as [w0 [e|a]]; simpl; [done|].
  intros H0 H1. specialize (H1 a).
  destruct (f a) as [w1 [e|b]]; simpl in *.
  - by apply Forall_app.
  - destruct H1 as (ws0 & -> & Hws0). exists (w0 ++ ws0).
    split; [by rewrite app_assoc|by apply Forall_app].
Qed.

Lemma stage_or_fail_complete n (m : M unit) :
  runs n m → stage_or_fail n (m ;; this_updateProgress n 100 "completed").
Proof.
  unfold runs. destruct m as [w [e|[]]]; simpl; [done|].
  intros Hw. by exists w.
Qed.

Lemma fraction_range i n :
  i < n → (0 <= ofNat (i + 1) / ofNat n)%Q ∧ (ofNat (i + 1) / ofNat n <= 1)%Q.
Proof.
  intros Hi. unfold ofNat.
  assert (0 < inject_Z (Z.of_nat n))%Q as Hn by (rewrite <- (Zlt_Qlt 0); lia).
  split.
  - apply Qle_shift_div_l; [done|]. rewrite Qmult_0_l. rewrite <- (Zle_Qle 0). lia.
  - apply Qle_shift_div_r; [done|]. rewrite Qmult_1_l. rewrite <- Zle_Qle. lia.
Qed.

Lemma okP_scaled i n (base scale : Q) :
  i < n → (0 <= base)%Q → (0 <= scale)%Q → (base + scale <= 100)%Q →
  okP (base + (ofNat (i + 1) / ofNat n) * scale)%Q.
Proof using okP_range.
  intros Hi Hb Hs Hbs. destruct (fraction_range i n Hi) as [H0 H1].
  set (x := (ofNat (i + 1) / ofNat n)%Q) in *.
  assert (0 <= x * scale)%Q by (by apply Qmult_le_0_compat).
  assert (x * scale <= 1 * scale)%Q by (by apply Qmult_le_compat_r).
  apply okP_range; lra.
Qed.

Lemma okP_fraction i n (scale : Q) :
  i < n → (0 <= scale)%Q → (scale <= 100)%Q →
  okP ((ofNat (i + 1) / ofNat n) * scale)%Q.
Proof using okP_range.
  intros Hi Hs Hs'. destruct (fraction_range i n Hi) as [H0 H1].
  set (x := (ofNat (i + 1) / ofNat n)%Q) in *.
  assert (0 <= x * scale)%Q by (by apply Qmult_le_0_compat).
  assert (x * scale <= 1 * scale)%Q by (by apply Qmult_le_compat_r).
  apply okP_range; lra.
Qed.

Section Methods.

Variable env : Env.

Variable this : VR180Pipeline.

Hypothesis Henv : env_ok env.

Lemma runs_initialize : runs "depth" (initialize env this).
Proof.
  unfold initialize.
  repeat (apply runs_bind; [apply runs_await | intros _]). apply runs_await.
Qed.

Lemma runs_extractFrames : runs "depth" (extractFrames env this).
Proof using Henv okP_range.
  unfold extractFrames.
  apply runs_bind; [apply runs_update, okP_range; discriminate | intros _].
  apply runs_bind; [apply runs_await | intros _].
  apply runs_bind.
  - apply runs_for_each. intros progress Hin.
    apply runs_bind; [apply runs_await | intros _].
    apply runs_update. unfold env_ok in Henv.
    rewrite Forall_forall in Henv. by apply Henv.
  - intros _. destruct (extraction_finish env); [apply runs_await|].
    apply runs_bind; [apply runs_await | intros _].
    apply runs_update, okP_range; discriminate.
Qed.

Lemma generateDepthMaps_stage : stage_or_fail "depth" (generateDepthMaps env this).
Proof using okP_range.
  unfold generateDepthMaps. rewrite try_catch_rethrow.
  apply stage_or_fail_prefix; [apply runs_update, okP_range; discriminate | intros _].
  apply stage_or_fail_prefix.
  { destruct (readdir_frames env);
      (apply runs_bind; [apply runs_await | intros _; apply runs_ret]). }
  intros frameFiles.
  apply stage_or_fail_prefix.
  { case (_ =? 0)%nat; [apply runs_throw | apply runs_ret]. }
  intros _. apply stage_or_fail_complete.
  apply runs_for_each. intros i Hi. apply elem_of_seq in Hi.
  apply runs_try_catch; [|intros _; apply runs_ret].
  apply runs_bind; [apply runs_await | intros _].
  apply runs_update, okP_scaled; [lia | discriminate..].
Qed.

Lemma depth_stage :
  stage_or_fail "depth"
    (initialize env this ;; extractFrames env this ;; generateDepthMaps env this).
Proof using Henv okP_range.
  apply stage_or_fail_prefix; [apply runs_initialize | intros _].
  apply stage_or_fail_prefix; [apply runs_extractFrames | intros _].
  apply generateDepthMaps_stage.
Qed.

End Methods.

Lemma synthesizeStereo_stage : stage_or_fail "stereo" synthesizeStereo.
Proof using okP_range.
  unfold synthesizeStereo. rewrite try_catch_rethrow.
  apply stage_or_fail_prefix; [apply runs_update, okP_0 | intros _].
  apply stage_or_fail_complete.
  apply runs_for_each. intros i Hi. apply elem_of_seq in Hi.
  apply runs_bind; [apply runs_await | intros _].
  apply runs_update, okP_fraction; [lia | discriminate..].
Qed.

Lemma runs_phases n (l : list (string * Q * Q)) :
  Forall (fun '(_, _, stage_progress) =>
            (0 <= stage_progress)%Q ∧ (stage_progress <= 100)%Q) l →
  runs n (for_each l (fun '(_, stage_duration, stage_progress) =>
    for_range 5 (fun i =>
      await (setTimeout (stage_duration / ofNat 5)) None ;;
      this_updateProgress n ((ofNat (i + 1) / ofNat 5) * stage_progress)%Q "processing"))).
Proof using okP_range.
  intros Hl. apply runs_for_each. intros [[nm duration] stage_progress] Hin.
  rewrite Forall_forall in Hl. destruct (Hl _ Hin) as [H0 H1].
  apply runs_for_each. intros i Hi. apply elem_of_seq in Hi.
  apply runs_bind; [apply runs_await | intros _].
  apply runs_update, okP_fraction; [lia | done..].
Qed.

Lemma expandPanorama_stage : stage_or_fail "outpainting" expandPanorama.
Proof using okP_range.
  unfold expandPanorama. rewrite try_catch_rethrow.
  apply stage_or_fail_prefix; [apply runs_update, okP_0 | intros _].
  apply stage_or_fail_complete, runs_phases.
  repeat constructor; discriminate.
Qed.

Lemma applyFoveatedBlur_stage : stage_or_fail "blur" applyFoveatedBlur.
Proof using okP_range.
  unfold applyFoveatedBlur. rewrite try_catch_rethrow.
  apply stage_or_fail_prefix; [apply runs_update, okP_0 | intros _].
  apply stage_or_fail_complete.
  apply runs_for_each. intros i Hi. apply elem_of_seq in Hi.
  apply runs_bind; [apply runs_await | intros _].
  apply runs_update, okP_fraction; [lia | discriminate..].
Qed.

Lemma upscaleAndEnhance_stage : stage_or_fail "upscaling" upscaleAndEnhance.
Proof using okP_range.
  unfold upscaleAndEnhance. rewrite try_catch_rethrow.
  apply stage_or_fail_prefix; [apply runs_update, okP_0 | intros _].
  apply stage_or_fail_complete, runs_phases.
  repeat constructor; discriminate.
Qed.

Lemma bind_inr {A B} w (a : A) (f : A → M B) :
  (w, inr a) ≫= f = (w ++ fst (f a), snd (f a)).
Proof. simpl. by destruct (f a). Qed.

Lemma processVideo_split env this :
  processVideo env this = (depth_stages env this ;; later_stages).
Proof.
  unfold processVideo, depth_stages. rewrite try_catch_rethrow.
  change (synthesizeStereo ≫= _) with later_stages.
  destruct (initialize env this) as [w0 [e|[]]]; simpl; [done|].
  destruct (extractFrames env this) as [w1 [e|[]]]; simpl; [done|].
  destruct (generateDepthMaps env this) as [w2 [e|[]]]; simpl; [done|].
  destruct later_stages as [w3 r]. by rewrite !app_assoc.
Qed.

Lemma stage_script_total n (m : M unit) :
  stage_or_fail n m → snd m = inr tt → stage_script n (fst m).
Proof. destruct m as [w [e|[]]]; simpl; [done|]. auto. Qed.

Lemma later_stages_safe arr :
  before_stage 1 arr → safe (before_stage 5) (fst later_stages) arr.
Proof using okP_range.
  intros Harr.
  change (fst later_stages) with
    (fst synthesizeStereo ++ fst expandPanorama ++
     fst applyFoveatedBlur ++ fst upscaleAndEnhance).
  apply safe_app.
  eapply safe_mono;
    [|eapply (safe_stage 1 "stereo");
      [done|apply stage_script_total; [apply synthesizeStereo_stage|reflexivity]|by apply before_at_stage; [lia|]]].
  intros a2 Ha2. apply safe_app.
  eapply safe_mono;
    [|eapply (safe_stage 2 "outpainting");
      [done|apply stage_script_total; [apply expandPanorama_stage|reflexivity]|by apply before_at_stage; [lia|]]].
  intros a3 Ha3. apply safe_app.
  eapply safe_mono;
    [|eapply (safe_stage 3 "blur");
      [done|apply stage_script_total; [apply applyFoveatedBlur_stage|reflexivity]|by apply before_at_stage; [lia|]]].
  intros a4 Ha4.
  eapply (safe_stage 4 "upscaling");
    [done|apply stage_script_total; [apply upscaleAndEnhance_stage|reflexivity]|by apply before_at_stage; [lia|]].
Qed.

(** Every step of [processVideo] is safe, whatever the external calls do. *)
Lemma processVideo_safe env this :
  env_ok env →
  safe (final (snd (processVideo env this))) (fst (processVideo env this)) initialStages.
Proof using okP_range.
  intros Henv. rewrite processVideo_split.
  pose proof (depth_stage env this Henv) as Hd. fold (depth_stages env this) in Hd.
  assert (at_stage 0 initialStages) as H0 by (by apply before_at_stage; [lia|]).
  destruct (depth_stages env this) as [w [e|[]]].
  - by eapply (safe_running 0 "depth").
  - rewrite bind_inr. cbn [fst snd].
    change (snd later_stages) with (@inr string bool true). cbn [final].
    apply safe_app.
    eapply safe_mono; [|by eapply (safe_stage 0 "depth")].
    intros a Ha. by apply later_stages_safe.
Qed.

Lemma sys_inv_initial : sys_inv initialSystem.
Proof. split; simpl; intros *; rewrite ?lookup_empty; done. Qed.

Lemma good_initialStages : good initialStages.
Proof using okP_range. by apply (before_stage_good 0). Qed.

Lemma upload_inv t1 t2 uuid file env sys :
  sys_inv sys → env_ok env → jobs (store sys) !! uuid = None →
  sys_inv (snd (upload t1 t2 uuid file env sys)).
Proof using okP_range.
  intros [HJ HR HS] Henv Hfresh. destruct file as [file|]; [|by split].
  unfold upload, alloc.
  remember (arrays (store sys)) as h eqn:Eh in *.
  set (l1 := fresh (dom h)).
  set (h1 := <[l1 := initialStages]> h).
  set (l2 := fresh (dom h1)).
  set (p := mkPipeline uuid (path file) ("outputs/" +:+ uuid) l2).
  pose proof (processVideo_safe env p Henv) as Hsafe.
  simpl.
  assert (h !! l1 = None) as Hl1 by (apply not_elem_of_dom, is_fresh).
  assert (h1 !! l2 = None) as Hl2 by (apply not_elem_of_dom, is_fresh).
  assert (l1 ≠ l2) as Hne.
  { intros <-. unfold h1 in Hl2. by rewrite lookup_insert_eq in Hl2. }
  assert (h !! l2 = None) as Hl2'.
  { unfold h1 in Hl2. by rewrite lookup_insert_ne in Hl2. }
  assert (∀ l arr, h !! l = Some arr → <[l2:=initialStages]> h1 !! l = Some arr) as Hold.
  { intros l arr Hl. unfold h1. rewrite !lookup_insert_ne; [done|congruence..]. }
  rewrite insert_insert_eq.
  split; simpl.
  - intros id j. destruct (decide (uuid = id)) as [<-|Hid].
    + rewrite lookup_insert_eq. intros [= <-]. split; [done|].
      exists p, initialStages. simpl.
      split_and!; [done|done| | |apply good_initialStages].
      * unfold h1. by rewrite lookup_insert_ne, lookup_insert_eq.
      * by rewrite lookup_insert_eq.
    + rewrite lookup_insert_ne by done. intros Hj.
      destruct (HJ id j Hj) as (? & p' & arr & ? & ? & ? & ? & ?).
      split; [done|]. exists p', arr. split_and!; auto.
  - intros id r. destruct (decide (uuid = id)) as [<-|Hid].
    + rewrite !lookup_insert_eq. intros [= <-]. simpl.
      eexists _, initialStages. split_and!; [done|done|done| |done].
      by rewrite lookup_insert_eq.
    + rewrite !lookup_insert_ne by done. intros Hr.
      destruct (HR id r Hr) as (j & arr & ? & ? & ? & ? & ?).
      exists j, arr. split_and!; auto.
  - intros id1 id2 j1 j2 p1 p2 Hid H1 H2 Hp1 Hp2.
    destruct (decide (uuid = id1)) as [<-|Hid1];
      [rewrite lookup_insert_eq in H1; injection H1 as <-
      |rewrite lookup_insert_ne in H1 by done];
    (destruct (decide (uuid = id2)) as [<-|Hid2];
      [rewrite lookup_insert_eq in H2; injection H2 as <-
      |rewrite lookup_insert_ne in H2 by done]); try done; simpl in *.
    + injection Hp1 as <-. simpl.
      destruct (HJ id2 j2 H2) as (_ & p' & arr & Hp' & _ & _ & Hl & _).
      assert (p' = p2) as -> by congruence.
      split; intros E; rewrite <- E in Hl; congruence.
    + injection Hp2 as <-. simpl.
      destruct (HJ id1 j1 H1) as (_ & p' & arr & Hp' & _ & Hl' & Hl & _).
      assert (p' = p1) as -> by congruence.
      split; intros E; [rewrite E in Hl|rewrite E in Hl']; congruence.
    + by apply (HS id1 id2 j1 j2 p1 p2).
Qed.

Lemma updateProgress_eq now p n q st σ arr j :
  arrays σ !! stages p = Some arr → jobs σ !! jobId p = Some j →
  updateProgress now p n q st σ =
    mkStore (<[jobId p := set_stages j (stages p) now]> (jobs σ))
            (<[stages p := update_stage n q st arr]> (arrays σ)).
Proof. intros Ha Hj. unfold updateProgress. by rewrite Ha, Hj. Qed.

(** The facts about the runner of [id] that the invariant provides. *)
Lemma runner_facts sys id r :
  sys_inv sys → runners sys !! id = Some r →
  ∃ j arr, jobs (store sys) !! id = Some j ∧
           job_id j = id ∧ jobId (this r) = id ∧
           job_status j = "processing" ∧
           job_pipeline j = Some (this r) ∧
           arrays (store sys) !! stages (this r) = Some arr ∧
           arrays (store sys) !! job_stages j = Some arr ∧
           good arr ∧
           safe (final (outcome r)) (pending r) arr.
Proof.
  intros [HJ HR HS] Hr.
  destruct (HR id r Hr) as (j & arr & Hj & Hst & Hp & Ha & Hsafe).
  destruct (HJ id j Hj) as (Hid & p' & arr' & Hp' & Hjid & Ha1 & Ha2 & Hg).
  assert (p' = this r) as -> by congruence.
  assert (arr' = arr) as -> by congruence.
  exists j, arr. split_and!; done.
Qed.

Lemma step_inv now id p env e rest sys :
  sys_inv sys → runners sys !! id = Some (mkRunner p env (e :: rest)) →
  sys_inv (mkSystem (exec_effect now p e (store sys))
             (<[id := mkRunner p env rest]> (runners sys))).
Proof.
  intros Hinv Hr.
  destruct (runner_facts sys id _ Hinv Hr)
    as (j & arr & Hj & Hjid & Hpid & Hst & Hp & Ha & Ha' & Hg & [[Hg' Hk] Hsafe]).
  destruct Hinv as [HJ HR HS]. simpl in *.
  destruct e as [n q st|call]; simpl in *.
  - rewrite (updateProgress_eq now p n q st _ arr j) by (by rewrite ?Hpid).
    rewrite Hpid. set (arr' := update_stage n q st arr) in *.
    split; simpl.
    + intros id0 j0. destruct (decide (id = id0)) as [<-|Hid].
      * rewrite lookup_insert_eq. intros [= <-]. split; [done|].
        exists p, arr'. simpl. rewrite lookup_insert_eq. by split_and!.
      * rewrite lookup_insert_ne by done. intros Hj0.
        destruct (HJ id0 j0 Hj0) as (? & p0 & arr0 & Hp0 & ? & ? & ? & ?).
        destruct (HS id0 id j0 j p0 p) as [? ?]; [done..|].
        split; [done|]. exists p0, arr0.
        rewrite !lookup_insert_ne by done. by split_and!.
    + intros id0 r0. destruct (decide (id = id0)) as [<-|Hid].
      * rewrite !lookup_insert_eq. intros [= <-]. simpl.
        eexists _, arr'. rewrite lookup_insert_eq. by split_and!.
      * rewrite !lookup_insert_ne by done. intros Hr0.
        destruct (HR id0 r0 Hr0) as (j0 & arr0 & ? & ? & Hp0 & ? & ?).
        destruct (HS id0 id j0 j (this r0) p) as [? ?]; [done..|].
        exists j0, arr0. rewrite lookup_insert_ne by done. by split_and!.
    + intros id1 id2 j1 j2 p1 p2 Hid H1 H2 Hp1 Hp2.
      destruct (decide (id = id1)) as [<-|Hid1];
        [rewrite lookup_insert_eq in H1; injection H1 as <-
        |rewrite lookup_insert_ne in H1 by done];
      (destruct (decide (id = id2)) as [<-|Hid2];
        [rewrite lookup_insert_eq in H2; injection H2 as <-
        |rewrite lookup_insert_ne in H2 by done]); try done; simpl in *.
      * assert (p1 = p) as -> by congruence.
        destruct (HS id id2 j j2 p p2) as [? ?]; done.
      * assert (p2 = p) as -> by congruence.
        by apply (HS id1 id j1 j p1 p).
      * by apply (HS id1 id2 j1 j2 p1 p2).
  - split; simpl; [done| |done].
    intros id0 r0. destruct (decide (id = id0)) as [<-|Hid].
    + rewrite lookup_insert_eq. intros [= <-]. simpl. exists j, arr. by split_and!.
    + rewrite lookup_insert_ne by done. apply HR.
Qed.

Lemma alter_inv f id sys :
  keeps_refs f → sys_inv sys →
  sys_inv (mkSystem (mkStore (alter f id (jobs (store sys))) (arrays (store sys)))
             (delete id (runners sys))).
Proof.
  intros Hf [HJ HR HS].
  assert (∀ id0 j0, alter f id (jobs (store sys)) !! id0 = Some j0 →
            ∃ j, jobs (store sys) !! id0 = Some j ∧ job_id j0 = job_id j ∧
                 job_pipeline j0 = job_pipeline j ∧ job_stages j0 = job_stages j) as Hback.
  { intros id0 j0. destruct (decide (id = id0)) as [<-|Hid].
    - rewrite lookup_alter_eq. destruct (jobs (store sys) !! id) as [j|]; [|done].
      intros [= <-]. exists j. split; [done|]. apply Hf.
    - rewrite lookup_alter_ne by done. intros ?. by exists j0. }
  split; simpl.
  - intros id0 j0 Hj0. destruct (Hback _ _ Hj0) as (j & Hj & E1 & E2 & E3).
    rewrite E1, E2, E3. by apply HJ.
  - intros id0 r0. destruct (decide (id = id0)) as [<-|Hid].
    + by rewrite lookup_delete_eq.
    + rewrite lookup_delete_ne by done. rewrite lookup_alter_ne by done. apply HR.
  - intros id1 id2 j1 j2 p1 p2 Hid H1 H2.
    destruct (Hback _ _ H1) as (j1' & Hj1 & _ & E2 & E3).
    destruct (Hback _ _ H2) as (j2' & Hj2 & _ & E2' & _).
    rewrite E2, E3, E2'. by apply (HS id1 id2).
Qed.

Lemma settle_inv now id r sys :
  sys_inv sys →
  sys_inv (mkSystem (settle now id r (store sys)) (delete id (runners sys))).
Proof.
  intros Hinv. unfold settle, onFulfilled, onRejected.
  destruct (outcome r); by apply alter_inv.
Qed.

Lemma sys_next_inv l sys sys' :
  sys_inv sys → label_ok l → sys_next l sys = Some sys' → sys_inv sys'.
Proof using okP_range.
  intros Hinv Hl. destruct l as [t1 t2 uuid file env|now id|now id]; simpl.
  - destruct (jobs (store sys) !! uuid) eqn:Hfresh; [done|].
    intros [= <-]. by apply upload_inv.
  - destruct (runners sys !! id) as [[p env [|e rest]]|] eqn:Hr; [done| |done].
    intros [= <-]. by apply step_inv.
  - destruct (runners sys !! id) as [[p env [|e rest]]|] eqn:Hr; [|done..].
    intros [= <-]. by apply settle_inv.
Qed.

Lemma sys_run_inv ls sys sys' :
  sys_inv sys → Forall label_ok ls → sys_run ls sys = Some sys' → sys_inv sys'.
Proof using okP_range.
  intros Hinv Hls. revert sys Hinv.
  induction Hls as [|l ls Hl _ IH]; intros sys Hinv; simpl.
  - by intros [= <-].
  - destruct (sys_next l sys) as [sys1|] eqn:E; simpl; [|done].
    apply IH. by eapply sys_next_inv.
Qed.

End Arrays.

(** ** The two bounds that are tracked *)

Lemma upper_range q : (0 <= q)%Q → (q <= 100)%Q → upper q.
Proof. intros _ H. exact H. Qed.

Lemma within_range q : (0 <= q)%Q → (q <= 100)%Q → within q.
Proof. intros H0 H1. by split. Qed.

Lemma Math_min_le_r a b : (Math_min a b <= b)%Q.
Proof.
  unfold Math_min. destruct (Qle_bool a b) eqn:E.
  - by apply Qle_bool_iff.
  - apply Qle_refl.
Qed.

Lemma Math_min_nonneg a b : (0 <= a)%Q → (0 <= b)%Q → (0 <= Math_min a b)%Q.
Proof. intros. unfold Math_min. by destruct (Qle_bool a b). Qed.

Lemma percent_or_0_nonneg progress :
  match progress with Some q => (0 <= q)%Q | None => True end →
  (0 <= percent_or_0 progress)%Q.
Proof.
  destruct progress as [q|]; simpl; [|discriminate].
  intros H. by destruct (Qeq_bool q 0).
Qed.

Lemma env_ok_upper env : env_ok upper env.
Proof.
  apply Forall_forall. intros progress _. unfold upper.
  pose proof (Math_min_le_r (percent_or_0 progress) 90). lra.
Qed.

Lemma env_ok_within env : reports_nonneg env → env_ok within env.
Proof.
  intros Henv. eapply Forall_impl; [exact Henv|].
  intros progress H. apply percent_or_0_nonneg in H.
  pose proof (Math_min_le_r (percent_or_0 progress) 90).
  pose proof (Math_min_nonneg (percent_or_0 progress) 90 H).
  split; lra.
Qed.

Lemma reachable_upper ls sys :
  sys_run ls initialSystem = Some sys → sys_inv upper sys.
Proof.
  apply (sys_run_inv upper upper_range); [apply sys_inv_initial|].
  apply Forall_forall. intros [? ? ? ? env| |] _; simpl; [apply env_ok_upper|done..].
Qed.

(** What a status response shows of the job record. *)
Lemma getStatus_shows id σ view :
  getStatus id σ = res_status view →
  ∃ j, jobs σ !! id = Some j ∧
       view_status view = job_status j ∧
       view_stages view = default [] (arrays σ !! job_stages j) ∧
       view_error view = job_error j ∧
       view_completedAt view = job_completedAt j ∧
       view_failedAt view = job_failedAt j.
Proof.
  unfold getStatus. destruct (jobs σ !! id) as [j|]; [|done].
  intros [= <-]. by exists j.
Qed.

(** The stages a status response shows, under the invariant. *)
Lemma shown_stages okP sys id view :
  sys_inv okP sys → getStatus id (store sys) = res_status view →
  ∃ j p, jobs (store sys) !! id = Some j ∧ job_pipeline j = Some p ∧
         arrays (store sys) !! job_stages j = Some (view_stages view) ∧
         arrays (store sys) !! stages p = Some (view_stages view) ∧
         good okP (view_stages view) ∧
         view_status view = job_status j.
Proof.
  intros [HJ _ _] Hv.
  destruct (getStatus_shows _ _ _ Hv) as (j & Hj & Hst & Hstages & _).
  destruct (HJ id j Hj) as (_ & p & arr & Hp & _ & Ha & Ha' & Hg).
  rewrite Ha in Hstages. simpl in Hstages. rewrite Hstages.
  by exists j, p.
Qed.

(** ** One step of the system, as the status route sees it *)

Lemma upload_view t1 t2 uuid file env sys id view :
  jobs (store sys) !! uuid = None →
  (∀ j, jobs (store sys) !! id = Some j → is_Some (arrays (store sys) !! job_stages j)) →
  getStatus id (store sys) = res_status view →
  getStatus id (store (snd (upload t1 t2 uuid file env sys))) = res_status view.
Proof.
  intros Hfresh Hdom Hv. destruct file as [file|]; [|done].
  unfold getStatus in *. simpl.
  destruct (jobs (store sys) !! id) as [j|] eqn:Hj; [|done].
  assert (uuid ≠ id) by congruence.
  rewrite insert_insert_eq, lookup_insert_ne, Hj by done.
  destruct (Hdom j eq_refl) as [arr Harr].
  set (h := arrays (store sys)) in *.
  assert (job_stages j ≠ fresh (dom h)).
  { intros E. pose proof (is_fresh (dom h)) as Hf. rewrite <- E in Hf.
    apply Hf, elem_of_dom. eauto. }
  assert (job_stages j ≠ fresh (dom (<[fresh (dom h) := initialStages]> h))).
  { intros E. pose proof (is_fresh (dom (<[fresh (dom h) := initialStages]> h))) as Hf.
    rewrite <- E in Hf. apply Hf, elem_of_dom. rewrite lookup_insert_ne by done. eauto. }
  by rewrite !lookup_insert_ne by done.
Qed.

Lemma step_views okP sys l sys' id view :
  sys_inv okP sys → sys_next l sys = Some sys' →
  getStatus id (store sys) = res_status view →
  ∃ view', getStatus id (store sys') = res_status view' ∧
           keeps_completed (view_stages view) (view_stages view') ∧
           status_moves (view_status view) (view_status view').
Proof.
  intros Hinv Hnext Hv.
  destruct l as [t1 t2 uuid file env|now rid|now rid]; simpl in Hnext.
  - destruct (jobs (store sys) !! uuid) eqn:Hfresh; [done|].
    injection Hnext as <-. exists view.
    split; [|split; [apply keeps_completed_refl|by left]].
    apply upload_view; [done| |done].
    intros j Hj. destruct (inv_job _ _ Hinv id j Hj) as (_ & p & arr & _ & _ & Ha & _).
    eauto.
  - destruct (runners sys !! rid) as [[p env [|e rest]]|] eqn:Hr; [done| |done].
    injection Hnext as <-. simpl.
    destruct e as [n q st|call]; simpl;
      [|exists view; split; [done|split; [apply keeps_completed_refl|by left]]].
    destruct (runner_facts okP sys rid _ Hinv Hr)
      as (jr & arr & Hjr & _ & Hpid & _ & Hp & Ha & Ha' & _ & [[_ Hk] _]).
    simpl in *.
    rewrite (updateProgress_eq now p n q st _ arr jr) by (by rewrite ?Hpid).
    rewrite Hpid.
    destruct (shown_stages okP sys id view Hinv Hv) as (j & pj & Hj & Hpj & Hs & Hs' & _ & _).
    unfold getStatus in Hv |- *. rewrite Hj in Hv. injection Hv as Hv. subst view. simpl in *.
    destruct (decide (rid = id)) as [->|Hne].
    + rewrite lookup_insert_eq. simpl. rewrite lookup_insert_eq. simpl.
      eexists. split; [reflexivity|]. simpl.
      assert (jr = j) as -> by congruence. rewrite Ha'. simpl.
      split; [done|by left].
    + rewrite lookup_insert_ne, Hj by done.
      destruct (inv_sep _ _ Hinv id rid j jr pj p) as [_ Hsep]; [done..|].
      rewrite lookup_insert_ne by done.
      eexists. split; [reflexivity|]. simpl.
      split; [apply keeps_completed_refl|by left].
  - destruct (runners sys !! rid) as [[p env [|e rest]]|] eqn:Hr; [|done..].
    injection Hnext as <-. simpl.
    destruct (runner_facts okP sys rid _ Hinv Hr)
      as (jr & arr & Hjr & _ & _ & Hst & _).
    destruct (getStatus_shows _ _ _ Hv) as (j & Hj & Hvs & Hva & _).
    unfold getStatus in Hv |- *. rewrite Hj in Hv. injection Hv as Hv. subst view. simpl in *.
    unfold settle, onFulfilled, onRejected.
    destruct (decide (rid = id)) as [->|Hne].
    + assert (jr = j) as -> by congruence.
      destruct (outcome _); simpl; rewrite lookup_alter_eq, Hj; simpl;
        (eexists; split; [reflexivity|]; simpl;
         split; [apply keeps_completed_refl|right; auto]).
    + destruct (outcome _); simpl; rewrite lookup_alter_ne, Hj by done;
        (eexists; split; [reflexivity|]; simpl;
         split; [apply keeps_completed_refl|by left]).
Qed.

(** An event about another job changes neither the record of a job nor the
    array it shows. *)
Lemma other_job_untouched okP sys l sys' id :
  sys_inv okP sys → sys_next l sys = Some sys' → label_job l ≠ id →
  jobs (store sys') !! id = jobs (store sys) !! id ∧
  ∀ j, jobs (store sys) !! id = Some j →
       arrays (store sys') !! job_stages j = arrays (store sys) !! job_stages j.
Proof.
  intros Hinv Hnext Hne.
  destruct l as [t1 t2 uuid file env|now rid|now rid]; simpl in Hnext, Hne.
  - destruct (jobs (store sys) !! uuid) eqn:Hfresh; [done|].
    injection Hnext as <-. destruct file as [file|]; [|done].
    unfold upload, alloc. simpl. rewrite insert_insert_eq, lookup_insert_ne by done.
    split; [done|]. intros j Hj.
    destruct (inv_job _ _ Hinv id j Hj) as (_ & p & arr & _ & _ & Ha & _).
    set (h := arrays (store sys)) in *.
    assert (job_stages j ≠ fresh (dom h)).
    { intros E. pose proof (is_fresh (dom h)) as Hf. rewrite <- E in Hf.
      apply Hf, elem_of_dom. eauto. }
    assert (job_stages j ≠ fresh (dom (<[fresh (dom h) := initialStages]> h))).
    { intros E. pose proof (is_fresh (dom (<[fresh (dom h) := initialStages]> h))) as Hf.
      rewrite <- E in Hf. apply Hf, elem_of_dom. rewrite lookup_insert_ne by done. eauto. }
    by rewrite !lookup_insert_ne by done.
  - destruct (runners sys !! rid) as [[p env [|e rest]]|] eqn:Hr; [done| |done].
    injection Hnext as <-. cbn [store].
    destruct e as [n q st|call]; cbn [exec_effect]; [|done].
    destruct (runner_facts okP sys rid _ Hinv Hr)
      as (jr & arr & Hjr & _ & Hpid & _ & Hp & Ha & _).
    cbn [this] in *.
    rewrite (updateProgress_eq now p n q st _ arr jr) by (by rewrite ?Hpid).
    rewrite Hpid. simpl. rewrite lookup_insert_ne by done.
    split; [done|]. intros j Hj.
    destruct (inv_job _ _ Hinv id j Hj) as (_ & pj & _ & Hpj & _).
    destruct (inv_sep _ _ Hinv id rid j jr pj p) as [_ Hsep]; [done..|].
    by rewrite lookup_insert_ne.
  - destruct (runners sys !! rid) as [[p env [|e rest]]|] eqn:Hr; [|done..].
    injection Hnext as <-. simpl.
    unfold settle, onFulfilled, onRejected.
    destruct (outcome _); simpl; by rewrite lookup_alter_ne.
Qed.

(** ** Any number of steps, as the status route sees them *)

Lemma status_moves_trans a b c : status_moves a b → status_moves b c → status_moves a c.
Proof.
  unfold status_moves. intros [->|[-> Hb]] [->|[Hb' Hc]]; auto.
Qed.

Lemma keeps_completed_trans a b c :
  keeps_completed a b → keeps_completed b c → keeps_completed a c.
Proof.
  intros Hab Hbc k s Hs Hst.
  destruct (Hab k s Hs Hst) as (s' & Hs' & Hst'). eauto.
Qed.

Lemma sys_next_upper l sys sys' :
  sys_inv upper sys → sys_next l sys = Some sys' → sys_inv upper sys'.
Proof.
  intros Hinv. apply (sys_next_inv upper upper_range); [done|].
  destruct l; simpl; [apply env_ok_upper|done..].
Qed.

Lemma run_views ls sys sys' id view :
  sys_inv upper sys → sys_run ls sys = Some sys' →
  getStatus id (store sys) = res_status view →
  ∃ view', getStatus id (store sys') = res_status view' ∧
           keeps_completed (view_stages view) (view_stages view') ∧
           status_moves (view_status view) (view_status view').
Proof.
  revert sys view. induction ls as [|l ls IH]; intros sys view Hinv; simpl.
  - intros [= <-] Hv. exists view.
    split; [done|split; [apply keeps_completed_refl|by left]].
  - destruct (sys_next l sys) as [sys1|] eqn:E; simpl; [|done].
    intros Hrun Hv.
    destruct (step_views upper sys l sys1 id view Hinv E Hv) as (v1 & Hv1 & Hk1 & Hm1).
    destruct (IH sys1 v1 (sys_next_upper _ _ _ Hinv E) Hrun Hv1) as (v2 & Hv2 & Hk2 & Hm2).
    exists v2. split; [done|].
    split; [by eapply keeps_completed_trans|by eapply status_moves_trans].
Qed.

(** ** The lower bound, job by job *)

(** The invariant of one job survives every event, whatever the other
    jobs report: their arrays are not those of this job. *)
Lemma sys_next_job_within id l sys sys' :
  sys_inv upper sys → job_inv within id sys → own_reports_nonneg id l →
  sys_next l sys = Some sys' → job_inv within id sys'.
Proof.
  intros Hinv [Hjob Hrun] Hl Hnext.
  destruct l as [t1 t2 uuid file env|now rid|now rid]; simpl in Hnext.
  - destruct (jobs (store sys) !! uuid) eqn:Hfresh; [done|].
    injection Hnext as <-. destruct file as [file|]; [|by split].
    simpl in Hl. unfold upload, alloc.
    remember (arrays (store sys)) as h eqn:Eh in *.
    set (l1 := fresh (dom h)).
    set (h1 := <[l1 := initialStages]> h).
    set (l2 := fresh (dom h1)).
    set (p := mkPipeline uuid (path file) ("outputs/" +:+ uuid) l2).
    simpl.
    assert (h !! l1 = None) as Hl1 by (apply not_elem_of_dom, is_fresh).
    assert (h1 !! l2 = None) as Hl2 by (apply not_elem_of_dom, is_fresh).
    assert (l1 ≠ l2) as Hne.
    { intros <-. unfold h1 in Hl2. by rewrite lookup_insert_eq in Hl2. }
    assert (h !! l2 = None) as Hl2'.
    { unfold h1 in Hl2. by rewrite lookup_insert_ne in Hl2. }
    assert (∀ l arr, h !! l = Some arr → <[l2:=initialStages]> h1 !! l = Some arr) as Hold.
    { intros l arr Hl0. unfold h1. rewrite !lookup_insert_ne; [done|congruence..]. }
    rewrite insert_insert_eq.
    split; simpl.
    + intros j. destruct (decide (uuid = id)) as [<-|Hid].
      * rewrite lookup_insert_eq. intros [= <-]. simpl.
        exists initialStages. split; [|apply (good_initialStages within within_range)].
        unfold h1. by rewrite lookup_insert_ne, lookup_insert_eq.
      * rewrite lookup_insert_ne by done. intros Hj.
        destruct (Hjob j Hj) as (arr & Ha & Hg). exists arr. split; [by apply Hold|done].
    + intros r. destruct (decide (uuid = id)) as [<-|Hid].
      * rewrite lookup_insert_eq. intros [= <-]. simpl.
        exists initialStages. split; [by rewrite lookup_insert_eq|].
        apply (processVideo_safe within within_range env p), env_ok_within, Hl.
        reflexivity.
      * rewrite lookup_insert_ne by done. intros Hr.
        destruct (Hrun r Hr) as (arr & Ha & Hs). exists arr. split; [by apply Hold|done].
  - destruct (runners sys !! rid) as [[p env [|e rest]]|] eqn:Hr; [done| |done].
    injection Hnext as <-.
    destruct (runner_facts upper sys rid _ Hinv Hr)
      as (jr & arr & Hjr & _ & Hpid & _ & Hp & Ha & _).
    cbn [this] in *. unfold job_inv.
    destruct e as [n q st|call]; cbn [store runners exec_effect].
    + rewrite (updateProgress_eq now p n q st _ arr jr) by (by rewrite ?Hpid).
      rewrite Hpid. cbn [jobs arrays].
      destruct (decide (rid = id)) as [->|Hne].
      * destruct (Hrun _ Hr) as (arr0 & Ha0 & [[Hg _] Hsafe]). cbn [this pending] in *.
        assert (arr0 = arr) as -> by congruence.
        split.
        -- intros j. rewrite lookup_insert_eq. intros [= <-]. simpl.
           eexists. split; [apply lookup_insert_eq|exact Hg].
        -- intros r. rewrite lookup_insert_eq. intros [= <-]. simpl.
           eexists. split; [apply lookup_insert_eq|exact Hsafe].
      * split.
        -- intros j. rewrite lookup_insert_ne by done. intros Hj.
           destruct (Hjob j Hj) as (arr0 & Ha0 & Hg).
           destruct (inv_job _ _ Hinv id j Hj) as (_ & pj & _ & Hpj & _).
           destruct (inv_sep _ _ Hinv id rid j jr pj p) as [_ Hsep]; [done..|].
           exists arr0. by rewrite lookup_insert_ne.
        -- intros r. rewrite lookup_insert_ne by done. intros Hr0.
           destruct (Hrun r Hr0) as (arr0 & Ha0 & Hsafe).
           destruct (inv_runner _ _ Hinv id r Hr0) as (j & _ & Hj & _ & Hpj & _).
           destruct (inv_sep _ _ Hinv id rid j jr (this r) p) as [Hsep _]; [done..|].
           exists arr0. by rewrite lookup_insert_ne.
    + split; [exact Hjob|].
      intros r. destruct (decide (rid = id)) as [->|Hne].
      * rewrite lookup_insert_eq. intros [= <-]. simpl.
        destruct (Hrun _ Hr) as (arr0 & Ha0 & [_ Hsafe]). by exists arr0.
      * rewrite lookup_insert_ne by done. apply Hrun.
  - destruct (runners sys !! rid) as [[p env [|e rest]]|] eqn:Hr; [|done..].
    injection Hnext as <-. unfold job_inv. cbn [store runners].
    split.
    + intros j'. unfold settle, onFulfilled, onRejected.
      destruct (decide (rid = id)) as [->|Hne].
      * destruct (outcome _); cbn [jobs arrays]; rewrite lookup_alter_eq;
          (destruct (jobs (store sys) !! id) as [j|] eqn:Hj; [|done]);
          intros [= <-]; simpl; by apply Hjob.
      * destruct (outcome _); cbn [jobs arrays]; rewrite lookup_alter_ne by done;
          apply Hjob.
    + intros r Hr0. apply lookup_delete_Some in Hr0 as [_ Hr0].
      destruct (Hrun r Hr0) as (arr0 & Ha0 & Hsafe). exists arr0. split; [|done].
      unfold settle, onFulfilled, onRejected.
      by destruct (outcome (mkRunner p env [])); simpl.
Qed.

Lemma sys_run_job_within id ls sys sys' :
  sys_inv upper sys → job_inv within id sys → Forall (own_reports_nonneg id) ls →
  sys_run ls sys = Some sys' → job_inv within id sys'.
Proof.
  intros Hinv Hjob Hls. revert sys Hinv Hjob.
  induction Hls as [|l ls Hl _ IH]; intros sys Hinv Hjob; simpl.
  - by intros [= <-].
  - destruct (sys_next l sys) as [sys1|] eqn:E; simpl; [|done].
    apply IH; [by eapply sys_next_upper|by eapply sys_next_job_within].
Qed.

Lemma reachable_job_within id ls sys :
  Forall (own_reports_nonneg id) ls →
  sys_run ls initialSystem = Some sys → job_inv within id sys.
Proof.
  intros Hls. apply sys_run_job_within; [apply sys_inv_initial| |done].
  split; simpl; intros ?; by rewrite lookup_empty.
Qed.

(** ** A job whose promise is settled *)




(** ** The scenarios of the specification, run *)

(** The frame extraction reports 10, 25 and 40 and every stage succeeds:
    the job ends [completed] with every stage completed at 100,
    [completedAt] set and no error. *)
Example scenario_success :
  getStatus "job-1"
    (store (after (LUpload 1 2 "job-1" (Some demo_file) env_two_frames ::
                   steps 3 "job-1" 86 ++ [LSettle 4 "job-1"]))) =
  res_status (mkJobView "job-1" "holiday.mp4" "completed"
                [done "depth"; done "stereo"; done "outpainting"; done "blur";
                 done "upscaling"] 1 3 (Some 4%Z) None None).
Proof. vm_compute. reflexivity. Qed.

(** The status of an identifier that was never submitted. *)
Example scenario_unknown_job :
  getStatus "job-2"
    (store (after [LUpload 1 2 "job-1" (Some demo_file) env_two_frames])) =
  res_error 404 "Job not found".
Proof. vm_compute. reflexivity. Qed.

(** Two jobs in flight: the steps of one leave the other as it was. *)
Example scenario_two_jobs :
  getStatus "job-2"
    (store (after (LUpload 1 2 "job-1" (Some demo_file) env_no_frames ::
                   LUpload 3 4 "job-2" (Some demo_file) env_two_frames ::
                   steps 5 "job-1" 10 ++ [LSettle 6 "job-1"]))) =
  res_status (mkJobView "job-2" "holiday.mp4" "processing" initialStages
                3 4 None None None).
Proof. vm_compute. reflexivity. Qed.

(** The hypothesis of the lower bound, for the second of two jobs, when
    the frame extraction of the first reports -100. *)
Example scenario_negative_neighbour :
  Forall (own_reports_nonneg "job-2")
    (LUpload 1 2 "job-1" (Some demo_file) env_negative_report ::
     LUpload 1 2 "job-2" (Some demo_file) env_two_frames ::
     steps 3 "job-1" 8 ++ steps 3 "job-2" 21) ∧
  ¬ reports_nonneg env_negative_report.
Proof.
  split.
  - simpl. repeat first [apply Forall_nil_2 | apply Forall_cons_2]; simpl; try done.
    intros _. repeat first [apply Forall_nil_2 | apply Forall_cons_2]; discriminate.
  - intros H. apply Forall_cons in H as [H _]. by apply H.
Qed.

(** ** The claims *)

(** C4.  At every state the system can reach, the status route shows the
    stages of a job in pipeline order: when stage [k+1] has left [pending]
    (it is processing or terminal), stage [k] is not pending any more and
    has reached a terminal state (it is in fact [completed]). *)
Theorem C4_stages_in_pipeline_order ls sys id view k s s' :
  sys_run ls initialSystem = Some sys →
  getStatus id (store sys) = res_status view →
  view_stages view !! k = Some s →
  view_stages view !! S k = Some s' →
  status s' ≠ "pending" →
  status s ≠ "pending" ∧ (status s = "completed" ∨ status s = "failed").
Proof.
  intros Hrun Hv Hs Hs' Hst.
  pose proof (reachable_upper ls sys Hrun) as Hinv.
  destruct (shown_stages upper sys id view Hinv Hv) as (j & p & _ & _ & _ & _ & Hg & _).
  destruct Hg as (_ & Hord & _).
  rewrite (Hord k s s' Hs Hs' Hst). split; [discriminate|by left].
Qed.

Lemma C4_witness :
  status (done "depth") ≠ "pending" ∧
  (status (done "depth") = "completed" ∨ status (done "depth") = "failed").
Proof.
  apply (C4_stages_in_pipeline_order
           (LUpload 1 2 "job-1" (Some demo_file) env_two_frames :: steps 3 "job-1" 21)
           (after (LUpload 1 2 "job-1" (Some demo_file) env_two_frames :: steps 3 "job-1" 21))
           "job-1"
           (mkJobView "job-1" "holiday.mp4" "processing"
              [done "depth"; mkStage "stereo" 0 "processing"; untouched "outpainting";
               untouched "blur"; untouched "upscaling"] 1 3 None None None)
           0 (done "depth") (mkStage "stereo" 0 "processing")).
  - vm_compute. reflexivity.
  - vm_compute. reflexivity.
  - reflexivity.
  - reflexivity.
  - simpl. discriminate.
Defined.

(** C5.  The status of a job, as the status route shows it, only moves from
    [processing] to [completed] or from [processing] to [failed]: after any
    number of events of the system a job that was [completed] or [failed]
    still has that status. *)
Theorem C5_job_status_monotonic ls sys ls' sys' id view :
  sys_run ls initialSystem = Some sys →
  sys_run ls' sys = Some sys' →
  getStatus id (store sys) = res_status view →
  ∃ view', getStatus id (store sys') = res_status view' ∧
    (view_status view' = view_status view ∨
     view_status view = "processing" ∧
     (view_status view' = "completed" ∨ view_status view' = "failed")) ∧
    (view_status view = "completed" → view_status view' = "completed") ∧
    (view_status view = "failed" → view_status view' = "failed").
Proof.
  intros Hrun Hrun' Hv.
  pose proof (reachable_upper ls sys Hrun) as Hinv.
  destruct (run_views ls' sys sys' id view Hinv Hrun' Hv) as (view' & Hv' & _ & Hm).
  exists view'. split; [done|]. split; [exact Hm|].
  split; intros E; rewrite E in Hm; destruct Hm as [->|[? _]]; done.
Qed.

Lemma C5_witness :
  ∃ view',
    getStatus "job-1"
      (store (after (LUpload 1 2 "job-1" (Some demo_file) env_no_frames ::
                     steps 3 "job-1" 10 ++ [LSettle 4 "job-1"]))) = res_status view' ∧
    (view_status view' = "processing" ∨
     "processing" = "processing" ∧
     (view_status view' = "completed" ∨ view_status view' = "failed")) ∧
    ("processing" = "completed" → view_status view' = "completed") ∧
    ("processing" = "failed" → view_status view' = "failed").
Proof.
  apply (C5_job_status_monotonic
           (LUpload 1 2 "job-1" (Some demo_file) env_no_frames :: steps 3 "job-1" 10)
           (after (LUpload 1 2 "job-1" (Some demo_file) env_no_frames :: steps 3 "job-1" 10))
           [LSettle 4 "job-1"]
           (after (LUpload 1 2 "job-1" (Some demo_file) env_no_frames ::
                   steps 3 "job-1" 10 ++ [LSettle 4 "job-1"]))
           "job-1"
           (mkJobView "job-1" "holiday.mp4" "processing"
              [mkStage "depth" 50 "processing"; untouched "stereo"; untouched "outpainting";
               untouched "blur"; untouched "upscaling"] 1 3 None None None)).
  - vm_compute. reflexivity.
  - vm_compute. reflexivity.
  - vm_compute. reflexivity.
Defined.

(** C3, as the code has it.  At every state the system can reach, every
    progress value that the status route shows of a job is at most 100,
    and it is at least 0 when the frame extraction of that job reported no
    negative percentage, whatever the frame extractions of the other jobs
    reported (the 'progress' handler caps the reported percentage at 90
    and clamps nothing from below); and whatever events follow, a stage
    that is shown [completed] is shown [completed] ever after. *)
Theorem C3_progress_bounds_and_completed_stays ls sys id view ls' sys' :
  sys_run ls initialSystem = Some sys →
  getStatus id (store sys) = res_status view →
  sys_run ls' sys = Some sys' →
  (∀ s, s ∈ view_stages view →
     (progress s <= 100)%Q ∧
     (Forall (own_reports_nonneg id) ls → (0 <= progress s)%Q)) ∧
  ∃ view', getStatus id (store sys') = res_status view' ∧
           keeps_completed (view_stages view) (view_stages view').
Proof.
  intros Hrun Hv Hrun'.
  pose proof (reachable_upper ls sys Hrun) as Hinv.
  split.
  - intros s Hs. split.
    + destruct (shown_stages upper sys id view Hinv Hv) as (_ & _ & _ & _ & _ & _ & Hg & _).
      destruct Hg as (_ & _ & Hall). rewrite Forall_forall in Hall.
      by destruct (Hall s Hs) as [? _].
    + intros Hls.
      destruct (reachable_job_within id ls sys Hls Hrun) as [Hjob _].
      destruct (shown_stages upper sys id view Hinv Hv) as (j & _ & Hj & _ & Ha & _).
      destruct (Hjob j Hj) as (arr & Ha' & Hg).
      assert (arr = view_stages view) as -> by congruence.
      destruct Hg as (_ & _ & Hall). rewrite Forall_forall in Hall.
      by destruct (Hall s Hs) as [[? _] _].
  - destruct (run_views ls' sys sys' id view Hinv Hrun' Hv) as (view' & Hv' & Hk & _).
    by exists view'.
Qed.

(** Two jobs are in flight.  The frame extraction of the first reports
    -100, that of the second 10, 25 and 40: the bounds hold of the
    second. *)
Lemma C3_witness :
  (∀ s, s ∈ [done "depth"; mkStage "stereo" 0 "processing"; untouched "outpainting";
             untouched "blur"; untouched "upscaling"] →
     (progress s <= 100)%Q ∧
     (Forall (own_reports_nonneg "job-2")
        (LUpload 1 2 "job-1" (Some demo_file) env_negative_report ::
         LUpload 1 2 "job-2" (Some demo_file) env_two_frames ::
         steps 3 "job-1" 8 ++ steps 3 "job-2" 21) →
      (0 <= progress s)%Q)) ∧
  ∃ view',
    getStatus "job-2"
      (store (after (LUpload 1 2 "job-1" (Some demo_file) env_negative_report ::
                     LUpload 1 2 "job-2" (Some demo_file) env_two_frames ::
                     steps 3 "job-1" 8 ++ steps 3 "job-2" 21 ++ steps 5 "job-2" 8))) =
      res_status view' ∧
    keeps_completed
      [done "depth"; mkStage "stereo" 0 "processing"; untouched "outpainting";
       untouched "blur"; untouched "upscaling"]
      (view_stages view').
Proof.
  apply (C3_progress_bounds_and_completed_stays
           (LUpload 1 2 "job-1" (Some demo_file) env_negative_report ::
            LUpload 1 2 "job-2" (Some demo_file) env_two_frames ::
            steps 3 "job-1" 8 ++ steps 3 "job-2" 21)
           (after (LUpload 1 2 "job-1" (Some demo_file) env_negative_report ::
                   LUpload 1 2 "job-2" (Some demo_file) env_two_frames ::
                   steps 3 "job-1" 8 ++ steps 3 "job-2" 21))
           "job-2"
           (mkJobView "job-2" "holiday.mp4" "processing"
              [done "depth"; mkStage "stereo" 0 "processing"; untouched "outpainting";
               untouched "blur"; untouched "upscaling"] 1 3 None None None)
           (steps 5 "job-2" 8)
           (after (LUpload 1 2 "job-1" (Some demo_file) env_negative_report ::
                   LUpload 1 2 "job-2" (Some demo_file) env_two_frames ::
                   steps 3 "job-1" 8 ++ steps 3 "job-2" 21 ++ steps 5 "job-2" 8))).
  - vm_compute. reflexivity.
  - vm_compute. reflexivity.
  - vm_compute. reflexivity.
Defined.

(** C3, counterexample to the wording of the specification: a negative
    percentage reported by ffmpeg is written to the stage record without
    being clamped.  After the report of -100 the depth stage is shown with
    progress 10 + (-100) * 0.3 = -20. *)
Lemma C3_counterexample :
  ∃ view s,
    getStatus "job-1"
      (store (after (LUpload 1 2 "job-1" (Some demo_file) env_negative_report ::
                     steps 3 "job-1" 8))) = res_status view ∧
    view_stages view !! 0 = Some s ∧
    name s = "depth" ∧ (progress s == -20)%Q ∧ (progress s < 0)%Q.
Proof.
  eexists _, _. split; [vm_compute; reflexivity|].
  split; [reflexivity|]. split; [reflexivity|]. split; reflexivity.
Qed.

(** C1, as the code has it.  When the promise of [processVideo] rejects with
    a message, the [.catch] handler leaves the job with status [failed],
    [error] equal to that message and [failedAt] set.  The stage records
    stay as they were: no stage is marked failed.  The failure can only
    occur in the depth stage, which keeps its last written progress with
    status [processing] (or is still [pending] with progress 0 if the
    directories could not be created), and the later stages are still
    [pending] with progress 0. *)
Theorem C1_failed_job ls sys id message now sys' :
  sys_run ls initialSystem = Some sys →
  outcome <$> runners sys !! id = Some (inl message) →
  sys_next (LSettle now id) sys = Some sys' →
  ∃ view0 view p st,
    getStatus id (store sys) = res_status view0 ∧
    getStatus id (store sys') = res_status view ∧
    view_status view = "failed" ∧
    view_error view = Some message ∧
    view_failedAt view = Some now ∧
    view_stages view = view_stages view0 ∧
    view_stages view =
      [mkStage "depth" p st; mkStage "stereo" 0 "pending";
       mkStage "outpainting" 0 "pending"; mkStage "blur" 0 "pending";
       mkStage "upscaling" 0 "pending"] ∧
    (st = "processing" ∨ st = "pending" ∧ p = 0%Q).
Proof.
  intros Hrun Hout Hnext.
  pose proof (reachable_upper ls sys Hrun) as Hinv.
  simpl in Hnext.
  destruct (runners sys !! id) as [[pl env [|e rest]]|] eqn:Hr; [|done..].
  injection Hnext as <-. simpl in Hout. injection Hout as Hout.
  destruct (runner_facts upper sys id _ Hinv Hr)
    as (j & arr & Hj & _ & _ & _ & _ & _ & Ha & _ & Hfin).
  simpl in Hfin. rewrite Hout in Hfin.
  destruct Hfin as (n & p & st & Hn & -> & _ & Hst).
  injection Hn as <-.
  unfold settle. rewrite Hout. unfold getStatus, onRejected. simpl.
  rewrite lookup_alter_eq, Hj. simpl. rewrite Ha. simpl.
  eexists _, _, p, st. split_and!; done.
Qed.

Lemma C1_witness :
  ∃ view0 view p st,
    getStatus "job-1"
      (store (after (LUpload 1 2 "job-1" (Some demo_file) env_no_frames ::
                     steps 3 "job-1" 10))) = res_status view0 ∧
    getStatus "job-1"
      (store (after (LUpload 1 2 "job-1" (Some demo_file) env_no_frames ::
                     steps 3 "job-1" 10 ++ [LSettle 4 "job-1"]))) = res_status view ∧
    view_status view = "failed" ∧
    view_error view = Some "No frames extracted from video" ∧
    view_failedAt view = Some 4%Z ∧
    view_stages view = view_stages view0 ∧
    view_stages view =
      [mkStage "depth" p st; mkStage "stereo" 0 "pending";
       mkStage "outpainting" 0 "pending"; mkStage "blur" 0 "pending";
       mkStage "upscaling" 0 "pending"] ∧
    (st = "processing" ∨ st = "pending" ∧ p = 0%Q).
Proof.
  apply (C1_failed_job
           (LUpload 1 2 "job-1" (Some demo_file) env_no_frames :: steps 3 "job-1" 10)
           (after (LUpload 1 2 "job-1" (Some demo_file) env_no_frames :: steps 3 "job-1" 10))
           "job-1" "No frames extracted from video" 4
           (after (LUpload 1 2 "job-1" (Some demo_file) env_no_frames ::
                   steps 3 "job-1" 10 ++ [LSettle 4 "job-1"]))).
  - vm_compute. reflexivity.
  - vm_compute. reflexivity.
  - vm_compute. reflexivity.
Defined.

(** C1, counterexample to the wording of the specification: the stage in
    which the failure occurs is not marked failed.  With no frame
    extracted, the job ends [failed] with the message of the error, and its
    depth stage is still shown [processing] at 50. *)
Lemma C1_counterexample :
  ∃ view,
    getStatus "job-1"
      (store (after (LUpload 1 2 "job-1" (Some demo_file) env_no_frames ::
                     steps 3 "job-1" 10 ++ [LSettle 4 "job-1"]))) = res_status view ∧
    view_status view = "failed" ∧
    view_error view = Some "No frames extracted from video" ∧
    view_stages view !! 0 = Some (mkStage "depth" 50 "processing") ∧
    Forall (fun s => status s ≠ "failed") (view_stages view).
Proof.
  eexists. split; [vm_compute; reflexivity|].
  split; [reflexivity|]. split; [reflexivity|]. split; [reflexivity|].
  repeat constructor; discriminate.
Qed.

(** C2, as the code has it.  The status requested right after the upload
    route has answered, before any step of the pipeline, shows the job with
    status [processing] and the five stage records of the job literal
    (depth, stereo, outpainting, blur, upscaling: the frame extraction has
    no record of its own), each [pending] with progress 0. *)
Theorem C2_status_after_upload t1 t2 uuid file env sys :
  getStatus uuid (store (snd (upload t1 t2 uuid (Some file) env sys))) =
    res_status (mkJobView uuid (originalname file) "processing" initialStages
                  t1 t2 None None None) ∧
  name <$> initialStages = ["depth"; "stereo"; "outpainting"; "blur"; "upscaling"] ∧
  Forall (fun s => status s = "pending" ∧ progress s = 0%Q) initialStages.
Proof.
  split; [|split; [reflexivity|repeat constructor]].
  unfold upload, alloc, getStatus. simpl.
  rewrite lookup_insert_eq. simpl.
  set (h := arrays (store sys)).
  assert (fresh (dom h) ≠ fresh (dom (<[fresh (dom h) := initialStages]> h))) as Hne.
  { intros E. pose proof (is_fresh (dom (<[fresh (dom h) := initialStages]> h))) as Hf.
    rewrite <- E in Hf. apply Hf, elem_of_dom. rewrite lookup_insert_eq. eauto. }
  rewrite lookup_insert_ne, lookup_insert_eq by done. reflexivity.
Qed.

(** C2, counterexample to the wording of the specification: the status
    after an upload shows five stages, not six. *)
Lemma C2_counterexample :
  ∃ view,
    getStatus "job-1"
      (store (after [LUpload 1 2 "job-1" (Some demo_file) env_two_frames])) =
      res_status view ∧
    view_status view = "processing" ∧
    length (view_stages view) = 5 ∧
    length (view_stages view) ≠ 6.
Proof.
  eexists. split; [vm_compute; reflexivity|].
  split; [reflexivity|]. split; [reflexivity|]. simpl. lia.
Qed.



(** C7.  The download route answers 404 (not found) when the job is unknown
    and when the output file of a completed job is missing, 400 (not
    ready) when the job exists and is not completed, and it sends a file
    only for a job that is completed: never for a failed or a processing
    one. *)
Theorem C7_download_errors access id σ :
  (jobs σ !! id = None → download access id σ = res_error 404 "Job not found") ∧
  (∀ j, jobs σ !! id = Some j → job_status j ≠ "completed" →
        download access id σ = res_error 400 "Job not completed yet") ∧
  (∀ j, jobs σ !! id = Some j → job_status j = "completed" →
        access ("outputs/" +:+ id +:+ "/final_vr180.mp4") = false →
        download access id σ = res_error 404 "Output file not found") ∧
  (∀ path filename, download access id σ = res_download path filename →
        ∃ j, jobs σ !! id = Some j ∧ job_status j = "completed" ∧
             job_status j ≠ "failed" ∧ job_status j ≠ "processing").
Proof.
  unfold download. split_and!.
  - by intros ->.
  - intros j -> Hst. apply String.eqb_neq in Hst. by rewrite Hst.
  - intros j -> Hst Ha. rewrite Hst, Ha. reflexivity.
  - intros path filename. destruct (jobs σ !! id) as [j|]; [|done].
    destruct (String.eqb (job_status j) "completed") eqn:E; simpl; [|done].
    apply String.eqb_eq in E. intros _. exists j. rewrite E. by split_and!.
Qed.

(** C8, as the code has it.  [synthesizeStereo], [expandPanorama],
    [applyFoveatedBlur] and [upscaleAndEnhance] begin, before any external
    call, by marking their stage [processing] with progress 0.  The depth
    stage is marked [processing] with progress 10 when [extractFrames]
    begins (after the directories have been created) and with progress 50
    when [generateDepthMaps] begins.  The write puts these values in the
    record of that stage. *)
Theorem C8_stage_start env this :
  (∃ ws, fst synthesizeStereo = Update "stereo" 0 "processing" :: ws) ∧
  (∃ ws, fst expandPanorama = Update "outpainting" 0 "processing" :: ws) ∧
  (∃ ws, fst applyFoveatedBlur = Update "blur" 0 "processing" :: ws) ∧
  (∃ ws, fst upscaleAndEnhance = Update "upscaling" 0 "processing" :: ws) ∧
  (∃ ws, fst (extractFrames env this) = Update "depth" 10 "processing" :: ws) ∧
  (∃ ws, fst (generateDepthMaps env this) = Update "depth" 50 "processing" :: ws) ∧
  (∀ arr k n q st, name <$> arr = names → names !! k = Some n →
     update_stage n q st arr !! k = Some (mkStage n q st)).
Proof.
  split_and!; try (eexists; reflexivity).
  - unfold extractFrames. simpl.
    destruct (for_each _ _ ≫= _) as [w [e|[]]]; eexists; reflexivity.
  - unfold generateDepthMaps. rewrite try_catch_rethrow. simpl.
    destruct (_ ≫= _) as [w [e|[]]]; eexists; reflexivity.
  - intros arr k n q st Harr Hn.
    destruct arr as [|[n0 p0 s0] [|[n1 p1 s1] [|[n2 p2 s2] [|[n3 p3 s3] [|[n4 p4 s4] [|]]]]]];
      try discriminate Harr.
    injection Harr as -> -> -> -> ->.
    apply lookup_lt_Some in Hn as Hk.
    destruct k as [|[|[|[|[|k]]]]]; [| | | | |simpl in Hk; lia];
      vm_compute in Hn; injection Hn as <-; reflexivity.
Qed.

(** C8, counterexample to the wording of the specification: the first
    write of the pipeline, made after four external calls, marks the depth
    stage [processing] with progress 10, not 0. *)
Lemma C8_counterexample :
  ∃ ws,
    fst (processVideo env_two_frames (mkPipeline "job-1" "uploads/6f1c-holiday.mp4" "outputs/job-1" 1)) =
      Await (fs_mkdir "outputs/job-1") ::
      Await (fs_mkdir "outputs/job-1/frames") ::
      Await (fs_mkdir "outputs/job-1/depth") ::
      Await (fs_mkdir "outputs/job-1/stereo") ::
      Update "depth" 10 "processing" :: ws ∧
    ¬ (10 == 0)%Q.
Proof. eexists. split; [vm_compute; reflexivity|discriminate]. Qed.

(** ** The outcome of the depth stage *)

Lemma snd_bind {A B} (m : M A) (f : A → M B) :
  snd (m ≫= f) = match snd m with
                 | inl e => inl e
                 | inr a => snd (f a)
                 end.
Proof. destruct m as [w [e|a]]; simpl; [done|]. by destruct (f a). Qed.

Lemma snd_for_each {A} (l : list A) (body : A → M unit) :
  (∀ x, snd (body x) = inr tt) → snd (for_each l body) = inr tt.
Proof.
  intros Hbody. induction l as [|x l IH]; simpl; [done|].
  change (snd (body x ≫= (fun _ => for_each l body)) = inr ()).
  by rewrite snd_bind, Hbody.
Qed.

(** [generateDepthMaps] rejects exactly when the frames cannot be listed or
    there is none; what [createOptimizedDepthMap] does is of no
    consequence. *)
Lemma generateDepthMaps_outcome env this :
  snd (generateDepthMaps env this) =
    match readdir_frames env with
    | inl error => inl error
    | inr files =>
        match pngFiles files with
        | [] => inl "No frames extracted from video"
        | _ :: _ => inr tt
        end
    end.
Proof.
  unfold generateDepthMaps. rewrite try_catch_rethrow.
  rewrite snd_bind. simpl. rewrite snd_bind.
  destruct (readdir_frames env) as [error|files]; simpl; [done|].
  rewrite snd_bind. fold (pngFiles files).
  destruct (pngFiles files) as [|f fs]; simpl; [done|].
  rewrite snd_bind. unfold for_range. rewrite snd_for_each; [done|].
  intros i. by destruct (depthMap_results env i).
Qed.

(** C9.  The failure of [createOptimizedDepthMap] for a frame is caught: it
    changes neither the outcome of [generateDepthMaps] nor that of the
    whole pipeline.  [generateDepthMaps] rejects only when the frames
    cannot be listed or when no frame was extracted; with at least one
    frame it resolves, whatever happens frame by frame, and its last step
    marks the depth stage completed. *)
Theorem C9_frame_failures_are_not_fatal env this results :
  snd (generateDepthMaps (set_depthMap_results results env) this) =
    snd (generateDepthMaps env this) ∧
  snd (processVideo (set_depthMap_results results env) this) =
    snd (processVideo env this) ∧
  (∀ message, snd (generateDepthMaps env this) = inl message ↔
     readdir_frames env = inl message ∨
     ∃ files, readdir_frames env = inr files ∧ pngFiles files = [] ∧
              message = "No frames extracted from video") ∧
  (∀ files, readdir_frames env = inr files → pngFiles files ≠ [] →
     snd (generateDepthMaps env this) = inr tt ∧
     last (fst (generateDepthMaps env this)) = Some (Update "depth" 100 "completed")).
Proof.
  assert (snd (generateDepthMaps (set_depthMap_results results env) this) =
          snd (generateDepthMaps env this)) as Hsame.
  { by rewrite !generateDepthMaps_outcome. }
  split_and!.
  - exact Hsame.
  - rewrite !processVideo_split. unfold depth_stages.
    rewrite !snd_bind.
    change (initialize (set_depthMap_results results env) this) with (initialize env this).
    change (extractFrames (set_depthMap_results results env) this) with (extractFrames env this).
    by rewrite Hsame.
  - intros message. rewrite generateDepthMaps_outcome.
    destruct (readdir_frames env) as [error|files].
    + split; [intros [= ->]; by left|].
      intros [[= ->]|(files & [=] & _)]. done.
    + destruct (pngFiles files) as [|f fs] eqn:E.
      * split; [intros [= <-]; right; by exists files|].
        intros [[=]|(files' & [= <-] & _ & ->)]. done.
      * split; [done|]. intros [[=]|(files' & [= <-] & E' & _)]. congruence.
  - intros files Hfiles Hne.
    pose proof (generateDepthMaps_stage upper upper_range env this) as Hstage.
    pose proof (generateDepthMaps_outcome env this) as Hout.
    rewrite Hfiles in Hout. destruct (pngFiles files); [done|].
    split; [done|].
    destruct (generateDepthMaps env this) as [w [e|[]]]; simpl in *; [done|].
    destruct Hstage as (ws0 & -> & _). by rewrite last_snoc.
Qed.

(** ** The name of the downloaded file *)

Lemma is_extension_dot base ext : is_extension (base +:+ "." +:+ ext) = false.
Proof.
  unfold is_extension. apply andb_false_intro2.
  induction base as [|c base IH]; simpl; [done|].
  rewrite IH. apply andb_false_r.
Qed.

Lemma replace_extension_eq s :
  replace_extension s =
    if matches_extension s then ""
    else match s with
         | "" => ""
         | String c rest => String c (replace_extension rest)
         end.
Proof. by destruct s. Qed.

Lemma matches_extension_inv c s :
  matches_extension (String c s) = true → c = "."%char ∧ is_extension s = true.
Proof. destruct c as [[] [] [] [] [] [] [] []]; simpl; done. Qed.

Lemma replace_extension_final base ext :
  is_extension ext = true → replace_extension (base +:+ "." +:+ ext) = base.
Proof.
  intros Hext. induction base as [|c base IH].
  - rewrite replace_extension_eq.
    change (matches_extension ("" +:+ "." +:+ ext)) with (is_extension ext).
    by rewrite Hext.
  - rewrite replace_extension_eq.
    change (String c base +:+ "." +:+ ext) with (String c (base +:+ "." +:+ ext)).
    destruct (matches_extension (String c (base +:+ "." +:+ ext))) eqn:E.
    + apply matches_extension_inv in E as [_ E]. by rewrite is_extension_dot in E.
    + by rewrite IH.
Qed.

Lemma replace_extension_none s :
  (∀ base ext, s = base +:+ "." +:+ ext → is_extension ext = false) →
  replace_extension s = s.
Proof.
  induction s as [|c s IH]; intros H; [done|].
  rewrite replace_extension_eq.
  destruct (matches_extension (String c s)) eqn:E.
  - apply matches_extension_inv in E as [-> E].
    by rewrite (H "" s) in E.
  - rewrite IH; [done|].
    intros base ext ->. by apply (H (String c base) ext).
Qed.

(** C10.  For a completed job whose output file exists, the download route
    sends the file [outputs/<jobId>/final_vr180.mp4] under the original
    file name with its final extension (a dot followed by one or more
    characters other than dots and slashes, at the end of the name)
    removed and [_VR180.mp4] appended; a name without such an extension is
    kept whole. *)
Theorem C10_download_name access id σ view :
  getStatus id σ = res_status view →
  view_status view = "completed" →
  access ("outputs/" +:+ id +:+ "/final_vr180.mp4") = true →
  ∃ stem,
    download access id σ =
      res_download ("outputs/" +:+ id +:+ "/final_vr180.mp4") (stem +:+ "_VR180.mp4") ∧
    (∀ base ext, view_filename view = base +:+ "." +:+ ext →
                 is_extension ext = true → stem = base) ∧
    ((∀ base ext, view_filename view = base +:+ "." +:+ ext →
                  is_extension ext = false) → stem = view_filename view).
Proof.
  intros Hv Hst Ha. unfold getStatus, download in *.
  destruct (jobs σ !! id) as [j|]; [|done].
  injection Hv as <-. simpl in *. rewrite Hst, Ha. simpl.
  exists (replace_extension (job_filename j)). split; [done|]. split.
  - intros base ext -> Hext. by apply replace_extension_final.
  - apply replace_extension_none.
Qed.

Lemma C10_witness :
  ∃ stem,
    download (fun _ => true) "job-1"
      (store (after (LUpload 1 2 "job-1" (Some demo_file) env_two_frames ::
                     steps 3 "job-1" 86 ++ [LSettle 4 "job-1"]))) =
      res_download "outputs/job-1/final_vr180.mp4" (stem +:+ "_VR180.mp4") ∧
    (∀ base ext, "holiday.mp4" = base +:+ "." +:+ ext →
                 is_extension ext = true → stem = base) ∧
    ((∀ base ext, "holiday.mp4" = base +:+ "." +:+ ext →
                  is_extension ext = false) → stem = "holiday.mp4").
Proof.
  apply (C10_download_name (fun _ => true) "job-1"
           (store (after (LUpload 1 2 "job-1" (Some demo_file) env_two_frames ::
                          steps 3 "job-1" 86 ++ [LSettle 4 "job-1"])))
           (mkJobView "job-1" "holiday.mp4" "completed"
              [done "depth"; done "stereo"; done "outpainting"; done "blur";
               done "upscaling"] 1 3 (Some 4%Z) None None)).
  - vm_compute. reflexivity.
  - reflexivity.
  - reflexivity.
Defined.

(** ** Further properties of the running system *)

(** X1.  The stage records of a job are the same five, in the same order,
    at every state the system can reach: only their progress and status
    change. *)
Theorem stage_names_are_fixed ls sys id view :
  sys_run ls initialSystem = Some sys →
  getStatus id (store sys) = res_status view →
  name <$> view_stages view = ["depth"; "stereo"; "outpainting"; "blur"; "upscaling"] ∧
  length (view_stages view) = 5.
Proof.
  intros Hrun Hv.
  pose proof (reachable_upper ls sys Hrun) as Hinv.
  destruct (shown_stages upper sys id view Hinv Hv) as (_ & _ & _ & _ & _ & _ & Hg & _).
  destruct Hg as (Hn & _). split; [exact Hn|].
  rewrite <- (length_fmap name), Hn. reflexivity.
Qed.

Lemma stage_names_are_fixed_witness :
  name <$> [done "depth"; mkStage "stereo" 0 "processing"; untouched "outpainting";
            untouched "blur"; untouched "upscaling"] =
    ["depth"; "stereo"; "outpainting"; "blur"; "upscaling"] ∧
  length [done "depth"; mkStage "stereo" 0 "processing"; untouched "outpainting";
          untouched "blur"; untouched "upscaling"] = 5.
Proof.
  apply (stage_names_are_fixed
           (LUpload 1 2 "job-1" (Some demo_file) env_two_frames :: steps 3 "job-1" 21)
           (after (LUpload 1 2 "job-1" (Some demo_file) env_two_frames :: steps 3 "job-1" 21))
           "job-1"
           (mkJobView "job-1" "holiday.mp4" "processing"
              [done "depth"; mkStage "stereo" 0 "processing"; untouched "outpainting";
               untouched "blur"; untouched "upscaling"] 1 3 None None None)).
  - vm_compute. reflexivity.
  - vm_compute. reflexivity.
Defined.

(** X2.  Jobs do not interfere: an upload, a pipeline step or a settling
    that concerns one job changes neither the status answer nor the
    download answer of any other job. *)
Theorem jobs_do_not_interfere ls sys l sys' id access :
  sys_run ls initialSystem = Some sys →
  sys_next l sys = Some sys' →
  label_job l ≠ id →
  getStatus id (store sys') = getStatus id (store sys) ∧
  download access id (store sys') = download access id (store sys).
Proof.
  intros Hrun Hnext Hne.
  pose proof (reachable_upper ls sys Hrun) as Hinv.
  destruct (other_job_untouched upper sys l sys' id Hinv Hnext Hne) as [Hj Ha].
  unfold getStatus, download. rewrite Hj.
  destruct (jobs (store sys) !! id) as [j|]; [|done].
  by rewrite (Ha j eq_refl).
Qed.

Lemma jobs_do_not_interfere_witness :
  getStatus "job-2"
    (store (after [LUpload 1 2 "job-1" (Some demo_file) env_no_frames;
                   LUpload 3 4 "job-2" (Some demo_file) env_two_frames;
                   LStep 5 "job-1"; LStep 5 "job-1"; LStep 5 "job-1";
                   LStep 5 "job-1"; LStep 5 "job-1"])) =
  getStatus "job-2"
    (store (after [LUpload 1 2 "job-1" (Some demo_file) env_no_frames;
                   LUpload 3 4 "job-2" (Some demo_file) env_two_frames;
                   LStep 5 "job-1"; LStep 5 "job-1"; LStep 5 "job-1";
                   LStep 5 "job-1"])) ∧
  download (fun _ => true) "job-2"
    (store (after [LUpload 1 2 "job-1" (Some demo_file) env_no_frames;
                   LUpload 3 4 "job-2" (Some demo_file) env_two_frames;
                   LStep 5 "job-1"; LStep 5 "job-1"; LStep 5 "job-1";
                   LStep 5 "job-1"; LStep 5 "job-1"])) =
  download (fun _ => true) "job-2"
    (store (after [LUpload 1 2 "job-1" (Some demo_file) env_no_frames;
                   LUpload 3 4 "job-2" (Some demo_file) env_two_frames;
                   LStep 5 "job-1"; LStep 5 "job-1"; LStep 5 "job-1";
                   LStep 5 "job-1"])).
Proof.
  apply (jobs_do_not_interfere
           [LUpload 1 2 "job-1" (Some demo_file) env_no_frames;
            LUpload 3 4 "job-2" (Some demo_file) env_two_frames;
            LStep 5 "job-1"; LStep 5 "job-1"; LStep 5 "job-1"; LStep 5 "job-1"]
           (after [LUpload 1 2 "job-1" (Some demo_file) env_no_frames;
                   LUpload 3 4 "job-2" (Some demo_file) env_two_frames;
                   LStep 5 "job-1"; LStep 5 "job-1"; LStep 5 "job-1"; LStep 5 "job-1"])
           (LStep 5 "job-1")).
  - vm_compute. reflexivity.
  - vm_compute. reflexivity.
  - simpl. discriminate.
Defined.

Lemma sys_next_fields okP sys l sys' :
  sys_inv okP sys → fields_inv sys → sys_next l sys = Some sys' → fields_inv sys'.
Proof.
  intros Hinv Hf Hnext.
  destruct l as [t1 t2 uuid file env|now rid|now rid]; simpl in Hnext.
  - destruct (jobs (store sys) !! uuid) eqn:Hfresh; [done|].
    injection Hnext as <-. destruct file as [file|]; [|done].
    intros id j. unfold upload, alloc. simpl. rewrite insert_insert_eq.
    destruct (decide (uuid = id)) as [<-|Hne].
    + rewrite lookup_insert_eq. intros [= <-]. simpl. by left.
    + rewrite lookup_insert_ne by done. apply Hf.
  - destruct (runners sys !! rid) as [[p env [|e rest]]|] eqn:Hr; [done| |done].
    injection Hnext as <-. intros id j. cbn [store].
    destruct e as [n q st|call]; cbn [exec_effect]; [|apply Hf].
    unfold updateProgress. cbn [jobs].
    destruct (jobs (store sys) !! jobId p) as [jp|] eqn:Hjp; [|apply Hf].
    destruct (decide (jobId p = id)) as [<-|Hne].
    + rewrite lookup_insert_eq. intros [= <-]. simpl. by apply (Hf (jobId p)).
    + rewrite lookup_insert_ne by done. apply Hf.
  - destruct (runners sys !! rid) as [[p env [|e rest]]|] eqn:Hr; [|done..].
    injection Hnext as <-.
    destruct (runner_facts okP sys rid _ Hinv Hr) as (jr & arr & Hjr & _ & _ & Hst & _).
    pose proof (Hf rid jr Hjr) as Hjf. rewrite Hst in Hjf.
    destruct Hjf as [(_ & Hc & Hfa & He)|[([=] & _)|([=] & _)]].
    intros id j. cbn [store]. unfold settle, onFulfilled, onRejected.
    destruct (decide (rid = id)) as [<-|Hne].
    + destruct (outcome _); cbn [jobs]; rewrite lookup_alter_eq, Hjr;
        intros [= <-]; simpl; rewrite ?Hc, ?Hfa, ?He.
      * right. right. eauto 10.
      * right. left. eauto 10.
    + destruct (outcome _); cbn [jobs]; rewrite lookup_alter_ne by done; apply Hf.
Qed.

Lemma sys_run_fields ls sys sys' :
  sys_inv upper sys → fields_inv sys → sys_run ls sys = Some sys' →
  sys_inv upper sys' ∧ fields_inv sys'.
Proof.
  revert sys. induction ls as [|l ls IH]; intros sys Hinv Hf; simpl.
  - by intros [= <-].
  - destruct (sys_next l sys) as [sys1|] eqn:E; simpl; [|done].
    apply IH; [by eapply sys_next_upper|by eapply sys_next_fields].
Qed.

Lemma reachable_fields ls sys :
  sys_run ls initialSystem = Some sys → fields_inv sys.
Proof.
  intros Hrun.
  apply (sys_run_fields ls initialSystem sys); [apply sys_inv_initial| |done].
  intros id j. simpl. by rewrite lookup_empty.
Qed.

(** X3.  At every state the system can reach, the optional fields of a job
    agree with its status: a processing job has no [completedAt], no
    [failedAt] and no [error]; a completed job has a [completedAt] and
    neither of the others; a failed job has a [failedAt] and an [error] and
    no [completedAt].  No other status occurs. *)
Theorem terminal_fields_agree_with_status ls sys id view :
  sys_run ls initialSystem = Some sys →
  getStatus id (store sys) = res_status view →
  fields_agree (view_status view) (view_completedAt view)
    (view_failedAt view) (view_error view).
Proof.
  intros Hrun Hv.
  destruct (getStatus_shows _ _ _ Hv) as (j & Hj & -> & _ & -> & -> & ->).
  by apply (reachable_fields ls sys Hrun id).
Qed.

Lemma terminal_fields_agree_with_status_witness :
  fields_agree "failed" None (Some 4%Z) (Some "No frames extracted from video").
Proof.
  apply (terminal_fields_agree_with_status
           (LUpload 1 2 "job-1" (Some demo_file) env_no_frames ::
            steps 3 "job-1" 10 ++ [LSettle 4 "job-1"])
           (after (LUpload 1 2 "job-1" (Some demo_file) env_no_frames ::
                   steps 3 "job-1" 10 ++ [LSettle 4 "job-1"]))
           "job-1"
           (mkJobView "job-1" "holiday.mp4" "failed"
              [mkStage "depth" 50 "processing"; untouched "stereo"; untouched "outpainting";
               untouched "blur"; untouched "upscaling"] 1 3 None (Some 4%Z)
              (Some "No frames extracted from video"))).
  - vm_compute. reflexivity.
  - vm_compute. reflexivity.
Defined.

(** X4.  When the promise of [processVideo] resolves, the [.then] handler
    leaves the job [completed] with [completedAt] set and neither
    [failedAt] nor [error]; each of its five stages is then completed with
    progress 100. *)
Theorem resolved_job_is_completed ls sys id b now sys' :
  sys_run ls initialSystem = Some sys →
  outcome <$> runners sys !! id = Some (inr b) →
  sys_next (LSettle now id) sys = Some sys' →
  ∃ view,
    getStatus id (store sys') = res_status view ∧
    view_status view = "completed" ∧
    view_completedAt view = Some now ∧
    view_failedAt view = None ∧
    view_error view = None ∧
    view_stages view =
      [mkStage "depth" 100 "completed"; mkStage "stereo" 100 "completed";
       mkStage "outpainting" 100 "completed"; mkStage "blur" 100 "completed";
       mkStage "upscaling" 100 "completed"].
Proof.
  intros Hrun Hout Hnext.
  pose proof (reachable_upper ls sys Hrun) as Hinv.
  pose proof (reachable_fields ls sys Hrun) as Hf.
  simpl in Hnext.
  destruct (runners sys !! id) as [[pl env [|e rest]]|] eqn:Hr; [|done..].
  injection Hnext as <-. simpl in Hout. injection Hout as Hout.
  destruct (runner_facts upper sys id _ Hinv Hr)
    as (j & arr & Hj & _ & _ & Hst & _ & _ & Ha & _ & Hfin).
  simpl in Hfin. rewrite Hout in Hfin. simpl in Hfin. rewrite Hfin in Ha.
  pose proof (Hf id j Hj) as Hjf. rewrite Hst in Hjf.
  destruct Hjf as [(_ & Hc & Hfa & He)|[([=] & _)|([=] & _)]].
  unfold settle. rewrite Hout. unfold getStatus, onFulfilled. simpl.
  rewrite lookup_alter_eq, Hj. simpl. rewrite Ha. simpl.
  eexists. split; [reflexivity|]. simpl. by split_and!.
Qed.

Lemma resolved_job_is_completed_witness :
  ∃ view,
    getStatus "job-1"
      (store (after (LUpload 1 2 "job-1" (Some demo_file) env_two_frames ::
                     steps 3 "job-1" 86 ++ [LSettle 4 "job-1"]))) = res_status view ∧
    view_status view = "completed" ∧
    view_completedAt view = Some 4%Z ∧
    view_failedAt view = None ∧
    view_error view = None ∧
    view_stages view =
      [mkStage "depth" 100 "completed"; mkStage "stereo" 100 "completed";
       mkStage "outpainting" 100 "completed"; mkStage "blur" 100 "completed";
       mkStage "upscaling" 100 "completed"].
Proof.
  apply (resolved_job_is_completed
           (LUpload 1 2 "job-1" (Some demo_file) env_two_frames :: steps 3 "job-1" 86)
           (after (LUpload 1 2 "job-1" (Some demo_file) env_two_frames :: steps 3 "job-1" 86))
           "job-1" true 4
           (after (LUpload 1 2 "job-1" (Some demo_file) env_two_frames ::
                   steps 3 "job-1" 86 ++ [LSettle 4 "job-1"]))).
  - vm_compute. reflexivity.
  - vm_compute. reflexivity.
  - vm_compute. reflexivity.
Defined.

Lemma clock_advances_app t ls1 ls2 :
  clock_advances t (ls1 ++ ls2) ↔
  clock_advances t ls1 ∧ clock_advances (clock_after t ls1) ls2.
Proof.
  revert t. induction ls1 as [|l ls1 IH]; intros t; simpl; [tauto|].
  rewrite IH. tauto.
Qed.

Lemma sys_next_time t l sys sys' :
  time_inv t sys → sys_next l sys = Some sys' →
  (t <= label_first_time l)%Z → (label_first_time l <= label_last_time l)%Z →
  time_inv (label_last_time l) sys' ∧
  ∀ id j, jobs (store sys) !! id = Some j →
    ∃ j', jobs (store sys') !! id = Some j' ∧
          job_uploadTime j' = job_uploadTime j ∧
          (job_lastUpdated j <= job_lastUpdated j')%Z.
Proof.
  intros Ht Hnext H1 H2.
  destruct l as [t1 t2 uuid file env|now rid|now rid]; simpl in *.
  - destruct (jobs (store sys) !! uuid) eqn:Hfresh; [done|].
    injection Hnext as <-. destruct file as [file|]; simpl.
    + rewrite insert_insert_eq. split.
      * intros id j. cbn [store jobs]. destruct (decide (uuid = id)) as [<-|Hne].
        -- rewrite lookup_insert_eq. intros [= <-]. simpl. lia.
        -- rewrite lookup_insert_ne by done. intros Hj.
           destruct (Ht id j Hj). lia.
      * intros id j Hj. assert (uuid ≠ id) by congruence.
        exists j. cbn [store jobs]. rewrite lookup_insert_ne by done.
        split_and!; [done|done|lia].
    + split; [|intros id j Hj; exists j; split_and!; [done|done|lia]].
      intros id j Hj. destruct (Ht id j Hj). lia.
  - destruct (runners sys !! rid) as [[p env [|e rest]]|] eqn:Hr; [done| |done].
    injection Hnext as <-. cbn [store].
    destruct e as [n q st|call]; cbn [exec_effect].
    + unfold updateProgress. cbn [jobs].
      destruct (jobs (store sys) !! jobId p) as [jp|] eqn:Hjp.
      * split.
        -- intros id j. cbn [store jobs]. destruct (decide (jobId p = id)) as [<-|Hne].
           ++ rewrite lookup_insert_eq. intros [= <-]. simpl.
              destruct (Ht _ _ Hjp). lia.
           ++ rewrite lookup_insert_ne by done. intros Hj.
              destruct (Ht id j Hj). lia.
        -- intros id j Hj. cbn [store jobs]. destruct (decide (jobId p = id)) as [<-|Hne].
           ++ rewrite lookup_insert_eq. eexists. split; [reflexivity|]. simpl.
              assert (jp = j) as -> by congruence.
              destruct (Ht _ _ Hjp). split; [done|lia].
           ++ rewrite lookup_insert_ne by done. exists j. split_and!; [done|done|lia].
      * split; [|intros id j Hj; exists j; split_and!; [done|done|lia]].
        intros id j Hj. destruct (Ht id j Hj). lia.
    + split; [|intros id j Hj; exists j; split_and!; [done|done|lia]].
      intros id j Hj. destruct (Ht id j Hj). lia.
  - destruct (runners sys !! rid) as [[p env [|e rest]]|] eqn:Hr; [|done..].
    injection Hnext as <-. cbn [store].
    assert (∀ f : Job → Job,
              (∀ j, job_uploadTime (f j) = job_uploadTime j ∧
                    job_lastUpdated (f j) = job_lastUpdated j) →
              time_inv now (mkSystem (mkStore (alter f rid (jobs (store sys)))
                                        (arrays (store sys))) (delete rid (runners sys))) ∧
              ∀ id j, jobs (store sys) !! id = Some j →
                ∃ j', alter f rid (jobs (store sys)) !! id = Some j' ∧
                      job_uploadTime j' = job_uploadTime j ∧
                      (job_lastUpdated j <= job_lastUpdated j')%Z) as Halter.
    { intros f Hf. split.
      - intros id j. cbn [store jobs]. destruct (decide (rid = id)) as [<-|Hne].
        + rewrite lookup_alter_eq. destruct (jobs (store sys) !! rid) as [j0|] eqn:Hj0; [|done].
          intros [= <-]. destruct (Hf j0) as [-> ->]. destruct (Ht _ _ Hj0). lia.
        + rewrite lookup_alter_ne by done. intros Hj. destruct (Ht id j Hj). lia.
      - intros id j Hj. destruct (decide (rid = id)) as [<-|Hne].
        + rewrite lookup_alter_eq, Hj. eexists. split; [reflexivity|].
          destruct (Hf j) as [-> ->]. split; [done|lia].
        + rewrite lookup_alter_ne by done. exists j. split_and!; [done|done|lia]. }
    unfold settle, onFulfilled, onRejected.
    destruct (outcome _); cbn [jobs]; apply Halter; by intros j.
Qed.

Lemma sys_run_time t ls sys sys' :
  time_inv t sys → clock_advances t ls → sys_run ls sys = Some sys' →
  time_inv (clock_after t ls) sys' ∧
  ∀ id j, jobs (store sys) !! id = Some j →
    ∃ j', jobs (store sys') !! id = Some j' ∧
          job_uploadTime j' = job_uploadTime j ∧
          (job_lastUpdated j <= job_lastUpdated j')%Z.
Proof.
  revert t sys. induction ls as [|l ls IH]; intros t sys Ht Hc; simpl.
  - intros [= <-]. split; [done|]. intros id j Hj. exists j. split_and!; [done|done|lia].
  - destruct Hc as (H1 & H2 & Hc).
    destruct (sys_next l sys) as [sys1|] eqn:E; simpl; [|done].
    intros Hrun.
    destruct (sys_next_time t l sys sys1 Ht E H1 H2) as [Ht1 Hstep].
    destruct (IH _ _ Ht1 Hc Hrun) as [Ht' Hrest].
    split; [done|]. intros id j Hj.
    destruct (Hstep id j Hj) as (j1 & Hj1 & Hu1 & Hl1).
    destruct (Hrest id j1 Hj1) as (j' & Hj' & Hu' & Hl').
    exists j'. split_and!; [done|congruence|lia].
Qed.

(** X6.  [lastUpdated] never goes back: when the clock does not go back
    along the events of the system, the [lastUpdated] a job shows is never
    before its [uploadTime] and never before a [lastUpdated] it showed
    earlier, and its [uploadTime] does not change. *)
Theorem lastUpdated_never_decreases t0 ls sys ls' sys' id view :
  clock_advances t0 (ls ++ ls') →
  sys_run ls initialSystem = Some sys →
  sys_run ls' sys = Some sys' →
  getStatus id (store sys) = res_status view →
  ∃ view',
    getStatus id (store sys') = res_status view' ∧
    view_uploadTime view' = view_uploadTime view ∧
    (view_uploadTime view <= view_lastUpdated view)%Z ∧
    (view_lastUpdated view <= view_lastUpdated view')%Z.
Proof.
  intros Hc Hrun Hrun' Hv.
  apply clock_advances_app in Hc as [Hc Hc'].
  assert (time_inv t0 initialSystem) as H0.
  { intros i j. simpl. by rewrite lookup_empty. }
  destruct (sys_run_time t0 ls _ _ H0 Hc Hrun) as [Ht _].
  destruct (sys_run_time _ ls' _ _ Ht Hc' Hrun') as [_ Hstep].
  unfold getStatus in *.
  destruct (jobs (store sys) !! id) as [j|] eqn:Hj; [|done].
  injection Hv as <-. simpl.
  destruct (Hstep id j Hj) as (j' & Hj' & Hu & Hl).
  rewrite Hj'. eexists. split; [reflexivity|]. simpl.
  destruct (Ht id j Hj). by split_and!.
Qed.

Lemma lastUpdated_never_decreases_witness :
  ∃ view',
    getStatus "job-1"
      (store (after (LUpload 1 2 "job-1" (Some demo_file) env_two_frames ::
                     steps 3 "job-1" 21 ++ steps 5 "job-1" 8))) = res_status view' ∧
    view_uploadTime view' = 1%Z ∧
    (1 <= 3)%Z ∧
    (3 <= view_lastUpdated view')%Z.
Proof.
  apply (lastUpdated_never_decreases 0
           (LUpload 1 2 "job-1" (Some demo_file) env_two_frames :: steps 3 "job-1" 21)
           (after (LUpload 1 2 "job-1" (Some demo_file) env_two_frames :: steps 3 "job-1" 21))
           (steps 5 "job-1" 8)
           (after (LUpload 1 2 "job-1" (Some demo_file) env_two_frames ::
                   steps 3 "job-1" 21 ++ steps 5 "job-1" 8))
           "job-1"
           (mkJobView "job-1" "holiday.mp4" "processing"
              [done "depth"; mkStage "stereo" 0 "processing"; untouched "outpainting";
               untouched "blur"; untouched "upscaling"] 1 3 None None None)).
  - vm_compute. repeat split; discriminate.
  - vm_compute. reflexivity.
  - vm_compute. reflexivity.
  - vm_compute. reflexivity.
Defined.

(** ** Further properties of the pipeline *)

Lemma snd_initialize env this :
  snd (initialize env this) =
    match mkdir_results env 0, mkdir_results env 1,
          mkdir_results env 2, mkdir_results env 3 with
    | Some e, _, _, _ => inl e
    | None, Some e, _, _ => inl e
    | None, None, Some e, _ => inl e
    | None, None, None, Some e => inl e
    | None, None, None, None => inr tt
    end.
Proof.
  unfold initialize.
  destruct (mkdir_results env 0); [done|].
  destruct (mkdir_results env 1); [done|].
  destruct (mkdir_results env 2); [done|].
  by destruct (mkdir_results env 3).
Qed.

Lemma snd_extractFrames env this :
  snd (extractFrames env this) =
    match extraction_finish env with
    | Some e => inl e
    | None => inr tt
    end.
Proof.
  unfold extractFrames. rewrite !snd_bind. cbn [snd this_updateProgress await].
  rewrite snd_for_each by done.
  by destruct (extraction_finish env).
Qed.

Lemma snd_depth_stages env this :
  snd (depth_stages env this) =
    match first_failure env with
    | Some e => inl e
    | None => inr tt
    end.
Proof.
  unfold depth_stages.
  rewrite snd_bind, snd_initialize. unfold first_failure.
  destruct (mkdir_results env 0); [done|].
  destruct (mkdir_results env 1); [done|].
  destruct (mkdir_results env 2); [done|].
  destruct (mkdir_results env 3); [done|].
  rewrite snd_bind, snd_extractFrames.
  destruct (extraction_finish env); [done|].
  rewrite generateDepthMaps_outcome.
  destruct (readdir_frames env) as [e|files]; [done|].
  by destruct (pngFiles files).
Qed.

(** X7.  When [processVideo] rejects and with which message: it rejects
    exactly when one of the four [mkdir] calls fails, the frame extraction
    ends with an error, the frames cannot be listed or there is no [.png]
    frame, with the message of the first of these errors.  Progress
    reports, failures of single depth maps and the four later stages never
    make it reject. *)
Theorem processVideo_outcome env this :
  snd (processVideo env this) =
    match first_failure env with
    | Some e => inl e
    | None => inr true
    end.
Proof.
  rewrite processVideo_split, snd_bind, snd_depth_stages.
  destruct (first_failure env) as [e|]; [reflexivity|].
  reflexivity.
Qed.

Lemma depthMap_calls_bind {A B} (m : M A) (f : A → M B) :
  depthMap_calls (fst (m ≫= f)) =
    depthMap_calls (fst m) ++
    match snd m with
    | inl _ => []
    | inr a => depthMap_calls (fst (f a))
    end.
Proof.
  destruct m as [w [e|a]]; simpl; [by rewrite app_nil_r|].
  destruct (f a) as [w' r]. simpl. unfold depthMap_calls. by rewrite omap_app.
Qed.

Lemma depthMap_calls_for_each {A} (l : list A) (body : A → M unit) (call : A → string) :
  (∀ x, snd (body x) = inr tt ∧ depthMap_calls (fst (body x)) = [call x]) →
  depthMap_calls (fst (for_each l body)) = call <$> l.
Proof.
  intros Hbody. induction l as [|x l IH]; [done|].
  change (for_each (x :: l) body) with (body x ≫= (fun _ => for_each l body)).
  destruct (Hbody x) as [Hs Hc].
  by rewrite depthMap_calls_bind, Hs, Hc, IH.
Qed.

Lemma generateDepthMaps_calls env this files :
  readdir_frames env = inr files →
  depthMap_calls (fst (generateDepthMaps env this)) =
    depthMapPath this <$> seq 0 (Nat.min (length (pngFiles files)) 5).
Proof.
  intros Hfiles.
  unfold generateDepthMaps. rewrite try_catch_rethrow.
  rewrite depthMap_calls_bind. cbn [fst snd this_updateProgress depthMap_calls omap].
  rewrite Hfiles. rewrite depthMap_calls_bind. cbn [app].
  rewrite snd_bind. cbn [snd await fst mbind M_bind bind ret app depthMap_calls omap].
  fold (pngFiles files).
  destruct (pngFiles files) as [|f fs] eqn:Epng; [done|].
  rewrite depthMap_calls_bind. cbn [length Nat.min Nat.eqb fst snd ret app depthMap_calls omap].
  rewrite depthMap_calls_bind. unfold for_range.
  rewrite snd_for_each by (intros i; by destruct (depthMap_results env i)).
  cbn [fst this_updateProgress depthMap_calls omap]. rewrite app_nil_r.
  apply depthMap_calls_for_each.
  intros i. by destruct (depthMap_results env i).
Qed.

(** X8.  [generateDepthMaps] asks for one depth map per frame, for the
    first five [.png] frames at most, in order, at the paths
    [depth/depth_0001.png], [depth/depth_0002.png], ... of the output
    directory, whether or not the creation of an earlier one failed. *)
Theorem depth_maps_requested env this files :
  readdir_frames env = inr files →
  depthMap_calls (fst (generateDepthMaps env this)) =
    depthMapPath this <$> seq 0 (Nat.min (length (pngFiles files)) 5) ∧
  length (depthMap_calls (fst (generateDepthMaps env this))) <= 5.
Proof.
  intros Hfiles. pose proof (generateDepthMaps_calls env this files Hfiles) as Hcalls.
  split; [exact Hcalls|].
  rewrite Hcalls, length_fmap, length_seq. lia.
Qed.

Lemma depth_maps_requested_witness :
  depthMap_calls
    (fst (generateDepthMaps env_two_frames
            (mkPipeline "job-1" "uploads/6f1c-holiday.mp4" "outputs/job-1" 1))) =
    depthMapPath (mkPipeline "job-1" "uploads/6f1c-holiday.mp4" "outputs/job-1" 1) <$>
      seq 0 (Nat.min (length (pngFiles ["frame_0001.png"; "frame_0002.png"; "notes.txt"])) 5) ∧
  length (depthMap_calls
            (fst (generateDepthMaps env_two_frames
                    (mkPipeline "job-1" "uploads/6f1c-holiday.mp4" "outputs/job-1" 1)))) <= 5.
Proof.
  apply (depth_maps_requested env_two_frames
           (mkPipeline "job-1" "uploads/6f1c-holiday.mp4" "outputs/job-1" 1)
           ["frame_0001.png"; "frame_0002.png"; "notes.txt"]).
  reflexivity.
Defined.

(** ** The older variant of the pipeline: its runs *)

Lemma run_arr_app w1 w2 arr : run_arr (w1 ++ w2) arr = run_arr w2 (run_arr w1 arr).
Proof. apply foldl_app. Qed.

Lemma Standard_batches_S env this pngFiles totalFrames batchSize fuel batchStart :
  Standard.batches env this pngFiles totalFrames batchSize (S fuel) batchStart =
    if (batchStart <? totalFrames)%nat then
      for_range
        (length (take (Nat.min (batchStart + batchSize) totalFrames - batchStart)
                   (drop batchStart pngFiles)))
        (fun i =>
           try_catch
             (await (createOptimizedDepthMap (depthMapPath this (batchStart + i)))
                (depthMap_results (Standard.common env) (batchStart + i)))
             (fun error => ret tt)) ;;
      this_updateProgress "depth"
        (50 + (ofNat (Nat.min (batchStart + batchSize) totalFrames) / ofNat totalFrames) * 50)%Q
        "processing" ;;
      Standard.batches env this pngFiles totalFrames batchSize fuel (batchStart + batchSize)
    else ret tt.
Proof. reflexivity. Qed.

Section StandardRuns.

Variable okP : Q → Prop.

Hypothesis okP_range : ∀ q, (0 <= q)%Q → (q <= 100)%Q → okP q.

Lemma safe_end Qf ws arr : safe okP Qf ws arr → Qf (run_arr ws arr).
Proof.
  revert arr. induction ws as [|e ws IH]; intros arr; simpl; [done|].
  intros [_ H]. by apply IH.
Qed.

Lemma safe_drop Qf ws arr m :
  safe okP Qf ws arr → safe okP Qf (drop m ws) (run_arr (take m ws) arr).
Proof.
  revert ws arr. induction m as [|m IH]; intros ws arr; [by rewrite drop_0|].
  destruct ws as [|e ws]; simpl; [done|]. intros [_ H]. by apply IH.
Qed.

Lemma safe_take Qf ws arr n :
  good okP arr → safe okP Qf ws arr →
  good okP (run_arr (take n ws) arr) ∧ keeps_completed arr (run_arr (take n ws) arr).
Proof.
  revert ws arr. induction n as [|n IH]; intros ws arr Hg.
  - rewrite take_0. intros _. split; [done|apply keeps_completed_refl].
  - destruct ws as [|e ws]; simpl; [intros _; split; [done|apply keeps_completed_refl]|].
    intros [[Hg' Hk] H]. destruct (IH ws _ Hg' H) as [Hg2 Hk2].
    split; [done|]. by eapply keeps_completed_trans.
Qed.

Lemma fraction_range_le b n :
  b <= n → 0 < n → (0 <= ofNat b / ofNat n)%Q ∧ (ofNat b / ofNat n <= 1)%Q.
Proof.
  intros Hb Hn. unfold ofNat.
  assert (0 < inject_Z (Z.of_nat n))%Q as Hn' by (rewrite <- (Zlt_Qlt 0); lia).
  split.
  - apply Qle_shift_div_l; [done|]. rewrite Qmult_0_l. rewrite <- (Zle_Qle 0). lia.
  - apply Qle_shift_div_r; [done|]. rewrite Qmult_1_l. rewrite <- Zle_Qle. lia.
Qed.

Lemma okP_batch b n : b <= n → 0 < n → okP (50 + (ofNat b / ofNat n) * 50)%Q.
Proof using okP_range.
  intros Hb Hn. destruct (fraction_range_le b n Hb Hn) as [H0 H1].
  set (x := (ofNat b / ofNat n)%Q) in *. apply okP_range; lra.
Qed.

Section Methods.

Variable env : Standard.Outcomes.

Variable this : VR180Pipeline.

Hypothesis Henv : env_ok okP (Standard.common env).

Lemma Standard_runs_initialize : runs okP "depth" (Standard.initialize env this).
Proof.
  unfold Standard.initialize.
  repeat (apply runs_bind; [apply runs_await | intros _]). apply runs_await.
Qed.

Lemma Standard_runs_extractFrames : runs okP "depth" (Standard.extractFrames env this).
Proof using Henv okP_range.
  unfold Standard.extractFrames.
  apply runs_bind; [apply runs_update, okP_range; discriminate | intros _].
  apply runs_bind; [apply runs_await | intros _].
  apply runs_bind.
  - apply runs_for_each. intros progress Hin.
    apply runs_bind; [apply runs_await | intros _].
    apply runs_update. unfold env_ok in Henv.
    rewrite Forall_forall in Henv. by apply Henv.
  - intros _. destruct (extraction_finish (Standard.common env)); [apply runs_await|].
    apply runs_bind; [apply runs_await | intros _].
    apply runs_update, okP_range; discriminate.
Qed.

Lemma Standard_runs_batches pngFiles totalFrames batchSize fuel batchStart :
  runs okP "depth"
    (Standard.batches env this pngFiles totalFrames batchSize fuel batchStart).
Proof using okP_range.
  revert batchStart. induction fuel as [|fuel IH]; intros batchStart.
  - apply runs_ret.
  - rewrite Standard_batches_S.
    destruct (batchStart <? totalFrames)%nat eqn:E; [|apply runs_ret].
    apply Nat.ltb_lt in E.
    apply runs_bind.
    + apply runs_for_each. intros i _.
      apply runs_try_catch; [apply runs_await|intros _; apply runs_ret].
    + intros _. apply runs_bind; [|intros _; apply IH].
      apply runs_update, okP_batch; lia.
Qed.

Lemma Standard_generateDepthMaps_stage :
  stage_or_fail okP "depth" (Standard.generateDepthMaps env this).
Proof using okP_range.
  unfold Standard.generateDepthMaps. rewrite try_catch_rethrow.
  apply stage_or_fail_prefix; [apply runs_update, okP_range; discriminate | intros _].
  apply stage_or_fail_prefix.
  { destruct (readdir_frames (Standard.common env));
      (apply runs_bind; [apply runs_await | intros _; apply runs_ret]). }
  intros frameFiles.
  apply stage_or_fail_prefix.
  { case (_ =? 0)%nat; [apply runs_throw | apply runs_ret]. }
  intros _. apply stage_or_fail_complete, Standard_runs_batches.
Qed.

Lemma Standard_depth_stage :
  stage_or_fail okP "depth" (Standard.depth_stages env this).
Proof using Henv okP_range.
  apply stage_or_fail_prefix; [apply Standard_runs_initialize | intros _].
  apply stage_or_fail_prefix; [apply Standard_runs_extractFrames | intros _].
  apply Standard_generateDepthMaps_stage.
Qed.

Lemma Standard_synthesizeStereo_stage :
  stage_or_fail okP "stereo" (Standard.synthesizeStereo env this).
Proof using okP_range.
  unfold Standard.synthesizeStereo. rewrite try_catch_rethrow.
  apply stage_or_fail_prefix; [apply runs_update, okP_0, okP_range | intros _].
  apply stage_or_fail_prefix.
  { destruct (Standard.readdir_stereo env);
      (apply runs_bind; [apply runs_await | intros _; apply runs_ret]). }
  intros frameFiles. apply stage_or_fail_complete.
  apply runs_for_each. intros i Hi. apply elem_of_seq in Hi.
  apply runs_bind; [apply runs_await | intros _].
  apply runs_update, okP_fraction; [done | lia | discriminate..].
Qed.

End Methods.

Lemma runs_phases_of steps n (l : list (string * Q * Q)) :
  Forall (fun '(_, _, stage_progress) =>
            (0 <= stage_progress)%Q ∧ (stage_progress <= 100)%Q) l →
  runs okP n (for_each l (fun '(_, stage_duration, stage_progress) =>
    for_range steps (fun i =>
      await (setTimeout (stage_duration / ofNat steps)) None ;;
      this_updateProgress n ((ofNat (i + 1) / ofNat steps) * stage_progress)%Q "processing"))).
Proof using okP_range.
  intros Hl. apply runs_for_each. intros [[nm duration] stage_progress] Hin.
  rewrite Forall_forall in Hl. destruct (Hl _ Hin) as [H0 H1].
  apply runs_for_each. intros i Hi. apply elem_of_seq in Hi.
  apply runs_bind; [apply runs_await | intros _].
  apply runs_update, okP_fraction; [done | lia | done..].
Qed.

Lemma Standard_expandPanorama_stage : stage_or_fail okP "outpainting" Standard.expandPanorama.
Proof using okP_range.
  unfold Standard.expandPanorama. rewrite try_catch_rethrow.
  apply stage_or_fail_prefix; [apply runs_update, okP_0, okP_range | intros _].
  apply stage_or_fail_complete, runs_phases_of.
  repeat constructor; discriminate.
Qed.

Lemma Standard_applyFoveatedBlur_stage : stage_or_fail okP "blur" Standard.applyFoveatedBlur.
Proof using okP_range.
  unfold Standard.applyFoveatedBlur. rewrite try_catch_rethrow.
  apply stage_or_fail_prefix; [apply runs_update, okP_0, okP_range | intros _].
  apply stage_or_fail_complete.
  apply runs_for_each. intros i Hi. apply elem_of_seq in Hi.
  apply runs_bind; [apply runs_await | intros _].
  apply runs_update, okP_fraction; [done | lia | discriminate..].
Qed.

Lemma Standard_upscaleAndEnhance_stage : stage_or_fail okP "upscaling" Standard.upscaleAndEnhance.
Proof using okP_range.
  unfold Standard.upscaleAndEnhance. rewrite try_catch_rethrow.
  apply stage_or_fail_prefix; [apply runs_update, okP_0, okP_range | intros _].
  apply stage_or_fail_complete, runs_phases_of.
  repeat constructor; discriminate.
Qed.

Lemma Standard_processVideo_split env this :
  Standard.processVideo env this =
    (Standard.depth_stages env this ;;
     Standard.synthesizeStereo env this ;;
     Standard.last_stages).
Proof.
  unfold Standard.processVideo, Standard.depth_stages. rewrite try_catch_rethrow.
  change (Standard.expandPanorama ≫= _) with Standard.last_stages.
  destruct (Standard.initialize env this) as [w0 [e|[]]]; simpl; [done|].
  destruct (Standard.extractFrames env this) as [w1 [e|[]]]; simpl; [done|].
  destruct (Standard.generateDepthMaps env this) as [w2 [e|[]]]; simpl; [done|].
  destruct (Standard.synthesizeStereo env this) as [w3 [e|[]]]; simpl;
    [by rewrite !app_assoc|].
  destruct Standard.last_stages as [w4 r]. by rewrite !app_assoc.
Qed.

Lemma Standard_last_stages_safe arr :
  before_stage 2 arr → safe okP (before_stage 5) (fst Standard.last_stages) arr.
Proof using okP_range.
  intros Harr.
  change (fst Standard.last_stages) with
    (fst Standard.expandPanorama ++ fst Standard.applyFoveatedBlur ++
     fst Standard.upscaleAndEnhance).
  apply safe_app.
  eapply safe_mono;
    [|eapply (safe_stage okP okP_range 2 "outpainting");
      [done|apply stage_script_total; [apply Standard_expandPanorama_stage|reflexivity]
      |by apply before_at_stage; [|lia|]]].
  intros a3 Ha3. apply safe_app.
  eapply safe_mono;
    [|eapply (safe_stage okP okP_range 3 "blur");
      [done|apply stage_script_total; [apply Standard_applyFoveatedBlur_stage|reflexivity]
      |by apply before_at_stage; [|lia|]]].
  intros a4 Ha4.
  eapply (safe_stage okP okP_range 4 "upscaling");
    [done|apply stage_script_total; [apply Standard_upscaleAndEnhance_stage|reflexivity]
    |by apply before_at_stage; [|lia|]].
Qed.

Lemma Standard_processVideo_safe env this :
  env_ok okP (Standard.common env) →
  safe okP (final_standard okP (snd (Standard.processVideo env this)))
    (fst (Standard.processVideo env this)) initialStages.
Proof using okP_range.
  intros Henv. rewrite Standard_processVideo_split.
  pose proof (Standard_depth_stage env this Henv) as Hd.
  pose proof (Standard_synthesizeStereo_stage env this) as Hs.
  assert (at_stage okP 0 initialStages) as H0 by (by apply before_at_stage; [|lia|]).
  destruct (Standard.depth_stages env this) as [w [e|[]]].
  - cbn [mbind M_bind bind fst snd final_standard stage_or_fail] in *.
    eapply safe_mono; [|by eapply (safe_running okP okP_range 0 "depth")].
    intros a Ha. by left.
  - rewrite bind_inr. cbn [fst snd stage_or_fail] in *.
    destruct (Standard.synthesizeStereo env this) as [w1 [e|[]]].
    + cbn [mbind M_bind bind fst snd final_standard stage_or_fail] in *.
      apply safe_app.
      eapply safe_mono; [|by eapply (safe_stage okP okP_range 0 "depth")].
      intros a1 Ha1. eapply safe_mono;
        [|eapply (safe_running okP okP_range 1 "stereo");
          [done|done|by apply before_at_stage; [|lia|]]].
      intros a Ha. by right.
    + rewrite bind_inr. cbn [fst snd stage_or_fail] in *.
      change (snd Standard.last_stages) with (@inr string bool true).
      cbn [final_standard].
      apply safe_app.
      eapply safe_mono; [|by eapply (safe_stage okP okP_range 0 "depth")].
      intros a1 Ha1. apply safe_app.
      eapply safe_mono;
        [|eapply (safe_stage okP okP_range 1 "stereo");
          [done|done|by apply before_at_stage; [|lia|]]].
      intros a2 Ha2. by apply Standard_last_stages_safe.
Qed.

End StandardRuns.

Lemma take_split {A} (l : list A) m n :
  m <= n → take n l = take m l ++ take (n - m) (drop m l).
Proof. intros H. rewrite take_take_drop. f_equal. lia. Qed.

(** X9.  The older pipeline keeps the stage records in order too: after any
    number of its steps the five records are the same stages, a stage has
    left [pending] only if the one before is completed, every progress is
    at most 100 (and at least 0 when ffmpeg reported no negative
    percentage), no record is marked failed, and a stage that was completed
    after fewer steps is still completed. *)
Theorem Standard_run_keeps_stages_in_order env this m n :
  m <= n →
  name <$> run_arr (take n (fst (Standard.processVideo env this))) initialStages =
    ["depth"; "stereo"; "outpainting"; "blur"; "upscaling"] ∧
  in_order (run_arr (take n (fst (Standard.processVideo env this))) initialStages) ∧
  Forall (fun s => (progress s <= 100)%Q ∧
                   (status s = "pending" ∨ status s = "processing" ∨
                    status s = "completed"))
    (run_arr (take n (fst (Standard.processVideo env this))) initialStages) ∧
  (reports_nonneg (Standard.common env) →
   Forall (fun s => (0 <= progress s)%Q)
     (run_arr (take n (fst (Standard.processVideo env this))) initialStages)) ∧
  keeps_completed
    (run_arr (take m (fst (Standard.processVideo env this))) initialStages)
    (run_arr (take n (fst (Standard.processVideo env this))) initialStages).
Proof.
  intros Hmn.
  pose proof (Standard_processVideo_safe upper upper_range env this
                (env_ok_upper _)) as Hsafe.
  set (ws := fst (Standard.processVideo env this)) in *.
  destruct (safe_take upper _ ws initialStages n (good_initialStages upper upper_range) Hsafe)
    as [(Hn & Ho & Ha) _].
  split_and!; [exact Hn|exact Ho|exact Ha| |].
  - intros Hrep.
    pose proof (Standard_processVideo_safe within within_range env this
                  (env_ok_within _ Hrep)) as Hsafe'.
    destruct (safe_take within _ _ initialStages n
                (good_initialStages within within_range) Hsafe') as [(_ & _ & Ha') _].
    eapply Forall_impl; [exact Ha'|]. by intros s [[? _] _].
  - rewrite (take_split ws m n Hmn), run_arr_app.
    destruct (safe_take upper _ ws initialStages m
                (good_initialStages upper upper_range) Hsafe) as [Hgm _].
    by destruct (safe_take upper _ _ _ (n - m) Hgm (safe_drop upper _ ws _ m Hsafe)).
Qed.

Lemma Standard_run_keeps_stages_in_order_witness :
  name <$> run_arr (take 18 (fst (Standard.processVideo outcomes_stereo_fails
      (mkPipeline "job-1" "uploads/6f1c-holiday.mp4" "outputs/job-1" 1)))) initialStages =
    ["depth"; "stereo"; "outpainting"; "blur"; "upscaling"] ∧
  in_order (run_arr (take 18 (fst (Standard.processVideo outcomes_stereo_fails
      (mkPipeline "job-1" "uploads/6f1c-holiday.mp4" "outputs/job-1" 1)))) initialStages) ∧
  Forall (fun s => (progress s <= 100)%Q ∧
                   (status s = "pending" ∨ status s = "processing" ∨
                    status s = "completed"))
    (run_arr (take 18 (fst (Standard.processVideo outcomes_stereo_fails
      (mkPipeline "job-1" "uploads/6f1c-holiday.mp4" "outputs/job-1" 1)))) initialStages) ∧
  (reports_nonneg (Standard.common outcomes_stereo_fails) →
   Forall (fun s => (0 <= progress s)%Q)
     (run_arr (take 18 (fst (Standard.processVideo outcomes_stereo_fails
      (mkPipeline "job-1" "uploads/6f1c-holiday.mp4" "outputs/job-1" 1)))) initialStages)) ∧
  keeps_completed
    (run_arr (take 17 (fst (Standard.processVideo outcomes_stereo_fails
      (mkPipeline "job-1" "uploads/6f1c-holiday.mp4" "outputs/job-1" 1)))) initialStages)
    (run_arr (take 18 (fst (Standard.processVideo outcomes_stereo_fails
      (mkPipeline "job-1" "uploads/6f1c-holiday.mp4" "outputs/job-1" 1)))) initialStages).
Proof.
  apply (Standard_run_keeps_stages_in_order outcomes_stereo_fails
           (mkPipeline "job-1" "uploads/6f1c-holiday.mp4" "outputs/job-1" 1) 17 18).
  lia.
Defined.

(** ** The older variant of the pipeline: its outcome *)

Lemma Standard_snd_batches env this pngFiles totalFrames batchSize fuel batchStart :
  snd (Standard.batches env this pngFiles totalFrames batchSize fuel batchStart) = inr tt.
Proof.
  revert batchStart. induction fuel as [|fuel IH]; intros batchStart; [done|].
  rewrite Standard_batches_S. destruct (batchStart <? totalFrames)%nat; [|done].
  rewrite snd_bind. unfold for_range. rewrite snd_for_each.
  - rewrite snd_bind. cbn [snd this_updateProgress]. apply IH.
  - intros i. by destruct (depthMap_results (Standard.common env) (batchStart + i)).
Qed.

Lemma Standard_snd_initialize env this :
  snd (Standard.initialize env this) = snd (initialize (Standard.common env) this).
Proof. reflexivity. Qed.

Lemma Standard_snd_extractFrames env this :
  snd (Standard.extractFrames env this) = snd (extractFrames (Standard.common env) this).
Proof. reflexivity. Qed.

Lemma Standard_generateDepthMaps_outcome env this :
  snd (Standard.generateDepthMaps env this) =
    snd (generateDepthMaps (Standard.common env) this).
Proof.
  rewrite generateDepthMaps_outcome.
  unfold Standard.generateDepthMaps. rewrite try_catch_rethrow.
  rewrite snd_bind. simpl. rewrite snd_bind.
  destruct (readdir_frames (Standard.common env)) as [error|files]; simpl; [done|].
  rewrite snd_bind. fold (pngFiles files).
  destruct (pngFiles files) as [|f fs]; [done|].
  cbn [length Nat.eqb snd ret]. by rewrite snd_bind, Standard_snd_batches.
Qed.

Lemma Standard_snd_depth_stages env this :
  snd (Standard.depth_stages env this) =
    match first_failure (Standard.common env) with
    | Some e => inl e
    | None => inr tt
    end.
Proof.
  rewrite <- (snd_depth_stages _ this). unfold Standard.depth_stages, depth_stages.
  rewrite !snd_bind.
  by rewrite Standard_snd_initialize, Standard_snd_extractFrames,
    Standard_generateDepthMaps_outcome.
Qed.

(** X10.  The older pipeline rejects whenever the optimized one does, with
    the same message, and in one more case: when [synthesizeStereo] cannot
    list the frames.  In every other case it resolves. *)
Theorem Standard_processVideo_outcome env this :
  snd (Standard.processVideo env this) =
    match snd (processVideo (Standard.common env) this) with
    | inl e => inl e
    | inr _ =>
        match Standard.readdir_stereo env with
        | inl e => inl e
        | inr _ => inr true
        end
    end.
Proof.
  rewrite Standard_processVideo_split, processVideo_split.
  rewrite !snd_bind, Standard_snd_depth_stages, snd_depth_stages.
  destruct (first_failure (Standard.common env)) as [e|]; [reflexivity|].
  change (snd later_stages) with (@inr string bool true). cbn match.
  unfold Standard.synthesizeStereo. rewrite try_catch_rethrow.
  rewrite !snd_bind. cbn [snd this_updateProgress].
  destruct (Standard.readdir_stereo env) as [e|files]; [reflexivity|].
  cbn [snd await mbind M_bind bind fst app ret].
  unfold for_range. rewrite snd_for_each by done. reflexivity.
Qed.

(** X11.  When the older pipeline fails in [synthesizeStereo], the job's
    stage records are left with the depth stage completed at 100, the
    stereo stage [processing] at 0 (not marked failed) and the three later
    stages untouched. *)
Theorem Standard_stereo_failure_leaves_stage_processing env this message :
  first_failure (Standard.common env) = None →
  Standard.readdir_stereo env = inl message →
  snd (Standard.processVideo env this) = inl message ∧
  run_arr (fst (Standard.processVideo env this)) initialStages =
    [mkStage "depth" 100 "completed"; mkStage "stereo" 0 "processing";
     mkStage "outpainting" 0 "pending"; mkStage "blur" 0 "pending";
     mkStage "upscaling" 0 "pending"].
Proof.
  intros Hok Hstereo.
  pose proof (Standard_depth_stage upper upper_range env this (env_ok_upper _)) as Hd.
  pose proof (Standard_snd_depth_stages env this) as Hsnd. rewrite Hok in Hsnd.
  rewrite Standard_processVideo_split.
  destruct (Standard.depth_stages env this) as [w [e|[]]]; [done|].
  cbn [stage_or_fail] in Hd.
  assert (run_arr w initialStages = done "depth" :: tail initialStages) as Hw.
  { apply (safe_end upper (before_stage 1)).
    apply (safe_stage upper upper_range 0 "depth"); [done|done|].
    by apply before_at_stage; [apply upper_range|lia|]. }
  rewrite bind_inr. cbn [fst snd].
  assert (Standard.synthesizeStereo env this =
          ([Update "stereo" 0 "processing";
            Await (fs_readdir (outputDir this +:+ "/frames"))], inl message)) as Hs.
  { unfold Standard.synthesizeStereo. by rewrite Hstereo. }
  rewrite Hs. cbn [mbind M_bind bind fst snd].
  split; [done|]. rewrite run_arr_app, Hw. reflexivity.
Qed.

Lemma Standard_stereo_failure_leaves_stage_processing_witness :
  snd (Standard.processVideo outcomes_stereo_fails
         (mkPipeline "job-1" "uploads/6f1c-holiday.mp4" "outputs/job-1" 1)) =
    inl "ENOENT: no such file or directory, scandir 'outputs/job-1/frames'" ∧
  run_arr (fst (Standard.processVideo outcomes_stereo_fails
                  (mkPipeline "job-1" "uploads/6f1c-holiday.mp4" "outputs/job-1" 1)))
    initialStages =
    [mkStage "depth" 100 "completed"; mkStage "stereo" 0 "processing";
     mkStage "outpainting" 0 "pending"; mkStage "blur" 0 "pending";
     mkStage "upscaling" 0 "pending"].
Proof.
  apply (Standard_stereo_failure_leaves_stage_processing outcomes_stereo_fails
           (mkPipeline "job-1" "uploads/6f1c-holiday.mp4" "outputs/job-1" 1)).
  - reflexivity.
  - reflexivity.
Defined.

(** ** The older variant of the pipeline: its batches *)

Lemma Standard_batches_calls env this pngFiles totalFrames batchSize fuel batchStart :
  totalFrames = length pngFiles → 1 <= batchSize → totalFrames - batchStart <= fuel →
  depthMap_calls
    (fst (Standard.batches env this pngFiles totalFrames batchSize fuel batchStart)) =
    depthMapPath this <$> seq batchStart (totalFrames - batchStart).
Proof.
  intros Htotal Hsize. revert batchStart.
  induction fuel as [|fuel IH]; intros batchStart Hfuel.
  - by replace (totalFrames - batchStart) with 0 by lia.
  - rewrite Standard_batches_S.
    destruct (batchStart <? totalFrames)%nat eqn:E.
    + apply Nat.ltb_lt in E.
      rewrite depthMap_calls_bind. unfold for_range.
      rewrite snd_for_each
        by (intros i; by destruct (depthMap_results (Standard.common env) (batchStart + i))).
      rewrite (depthMap_calls_for_each _ _ (fun i => depthMapPath this (batchStart + i)))
        by (intros i; by destruct (depthMap_results (Standard.common env) (batchStart + i))).
      rewrite depthMap_calls_bind. cbn [fst snd this_updateProgress depthMap_calls omap app].
      rewrite IH by lia.
      rewrite length_take, length_drop, <- Htotal. cbn [omap list_omap app].
      rewrite (list_fmap_compose (Nat.add batchStart) (depthMapPath this)).
      rewrite fmap_add_seq, Nat.add_0_r, <- fmap_app. f_equal.
      destruct (decide (batchStart + batchSize <= totalFrames)).
      * replace (Nat.min (Nat.min (batchStart + batchSize) totalFrames - batchStart)
                   (totalFrames - batchStart)) with batchSize by lia.
        rewrite <- seq_app. f_equal. lia.
      * replace (Nat.min (Nat.min (batchStart + batchSize) totalFrames - batchStart)
                   (totalFrames - batchStart)) with (totalFrames - batchStart) by lia.
        replace (totalFrames - (batchStart + batchSize)) with 0 by lia.
        by rewrite app_nil_r.
    + apply Nat.ltb_ge in E. by replace (totalFrames - batchStart) with 0 by lia.
Qed.

(** X12.  The older [generateDepthMaps] goes through all the frames: its
    batch loop asks for one depth map per [.png] frame, in order, at the
    paths [depth/depth_0001.png], [depth/depth_0002.png], ..., however
    many there are; the optimized one asks for the first five of these. *)
Theorem Standard_depth_maps_requested env this files :
  readdir_frames (Standard.common env) = inr files →
  depthMap_calls (fst (Standard.generateDepthMaps env this)) =
    depthMapPath this <$> seq 0 (length (pngFiles files)) ∧
  depthMap_calls (fst (generateDepthMaps (Standard.common env) this)) =
    take 5 (depthMap_calls (fst (Standard.generateDepthMaps env this))).
Proof.
  intros Hfiles.
  assert (depthMap_calls (fst (Standard.generateDepthMaps env this)) =
          depthMapPath this <$> seq 0 (length (pngFiles files))) as Hcalls.
  { unfold Standard.generateDepthMaps. rewrite try_catch_rethrow.
    rewrite depthMap_calls_bind. cbn [fst snd this_updateProgress depthMap_calls omap].
    rewrite Hfiles. rewrite depthMap_calls_bind. cbn [app].
    rewrite snd_bind. cbn [snd await fst mbind M_bind bind ret app depthMap_calls omap].
    fold (pngFiles files).
    destruct (pngFiles files) as [|f fs] eqn:Epng; [done|].
    rewrite depthMap_calls_bind.
    cbn [length Nat.eqb fst snd ret app depthMap_calls omap].
    rewrite depthMap_calls_bind, Standard_snd_batches.
    cbn [fst this_updateProgress depthMap_calls omap]. rewrite app_nil_r.
    rewrite Standard_batches_calls; [by rewrite Nat.sub_0_r|done|simpl; lia|lia]. }
  split; [exact Hcalls|].
  rewrite Hcalls, (generateDepthMaps_calls _ this files Hfiles).
  rewrite <- fmap_take, take_seq. f_equal. f_equal. lia.
Qed.

Lemma Standard_depth_maps_requested_witness :
  depthMap_calls
    (fst (Standard.generateDepthMaps outcomes_seven_frames
            (mkPipeline "job-1" "uploads/6f1c-holiday.mp4" "outputs/job-1" 1))) =
    depthMapPath (mkPipeline "job-1" "uploads/6f1c-holiday.mp4" "outputs/job-1" 1) <$>
      seq 0 (length (pngFiles ["frame_0001.png"; "frame_0002.png"; "frame_0003.png";
                               "frame_0004.png"; "frame_0005.png"; "frame_0006.png";
                               "frame_0007.png"])) ∧
  depthMap_calls
    (fst (generateDepthMaps (Standard.common outcomes_seven_frames)
            (mkPipeline "job-1" "uploads/6f1c-holiday.mp4" "outputs/job-1" 1))) =
    take 5 (depthMap_calls
              (fst (Standard.generateDepthMaps outcomes_seven_frames
                      (mkPipeline "job-1" "uploads/6f1c-holiday.mp4" "outputs/job-1" 1)))).
Proof.
  apply (Standard_depth_maps_requested outcomes_seven_frames
           (mkPipeline "job-1" "uploads/6f1c-holiday.mp4" "outputs/job-1" 1)
           ["frame_0001.png"; "frame_0002.png"; "frame_0003.png"; "frame_0004.png";
            "frame_0005.png"; "frame_0006.png"; "frame_0007.png"]).
  reflexivity.
Defined.

(** ** Progress writes that find nothing to update *)

Lemma update_stage_unknown n q st arr :
  n ∉ name <$> arr → update_stage n q st arr = arr.
Proof.
  intros Hn. unfold update_stage.
  destruct (list_find (fun s => name s = n) arr) as [[i s]|] eqn:E; [|done].
  apply list_find_Some in E as (Hi & Hs & _).
  exfalso. apply Hn. rewrite <- Hs. apply list_elem_of_fmap.
  exists s. split; [done|]. by eapply list_elem_of_lookup_2.
Qed.

(** X13.  [updateProgress] with a stage name that the pipeline does not
    have changes no stage record; it still makes the job refer to the
    array of the pipeline and refreshes [lastUpdated].  When the job is not
    in the map either, the store is unchanged. *)
Theorem updateProgress_unknown_stage now this n q st σ arr :
  arrays σ !! stages this = Some arr →
  n ∉ name <$> arr →
  arrays (updateProgress now this n q st σ) = arrays σ ∧
  (∀ j, jobs σ !! jobId this = Some j →
        jobs (updateProgress now this n q st σ) !! jobId this =
          Some (set_stages j (stages this) now)) ∧
  (jobs σ !! jobId this = None → updateProgress now this n q st σ = σ).
Proof.
  intros Ha Hn. unfold updateProgress. rewrite Ha, (update_stage_unknown _ _ _ _ Hn).
  rewrite (insert_id _ _ _ Ha). split_and!.
  - done.
  - intros j Hj. cbn [jobs]. rewrite Hj. apply lookup_insert_eq.
  - intros Hj. rewrite Hj. by destruct σ.
Qed.

Lemma updateProgress_unknown_stage_witness :
  arrays (updateProgress 7 (mkPipeline "job-1" "uploads/6f1c-holiday.mp4" "outputs/job-1" 1)
            "audio" 30 "processing"
            (store (after [LUpload 1 2 "job-1" (Some demo_file) env_two_frames]))) =
    arrays (store (after [LUpload 1 2 "job-1" (Some demo_file) env_two_frames])) ∧
  (∀ j, jobs (store (after [LUpload 1 2 "job-1" (Some demo_file) env_two_frames]))
          !! "job-1" = Some j →
        jobs (updateProgress 7
                (mkPipeline "job-1" "uploads/6f1c-holiday.mp4" "outputs/job-1" 1)
                "audio" 30 "processing"
                (store (after [LUpload 1 2 "job-1" (Some demo_file) env_two_frames])))
          !! "job-1" = Some (set_stages j 1 7)) ∧
  (jobs (store (after [LUpload 1 2 "job-1" (Some demo_file) env_two_frames]))
     !! "job-1" = None →
   updateProgress 7 (mkPipeline "job-1" "uploads/6f1c-holiday.mp4" "outputs/job-1" 1)
     "audio" 30 "processing"
     (store (after [LUpload 1 2 "job-1" (Some demo_file) env_two_frames])) =
   store (after [LUpload 1 2 "job-1" (Some demo_file) env_two_frames])).
Proof.
  apply (updateProgress_unknown_stage 7
           (mkPipeline "job-1" "uploads/6f1c-holiday.mp4" "outputs/job-1" 1)
           "audio" 30 "processing"
           (store (after [LUpload 1 2 "job-1" (Some demo_file) env_two_frames]))
           initialStages).
  - vm_compute. reflexivity.
  - simpl. rewrite !not_elem_of_cons. split_and!; try discriminate. apply not_elem_of_nil.
Defined.
